(** * isdhcplib: RFC 3046 relay agent information and RFC 3442 classless routes

    A shallow embedding of [isdhcplib/type_rfc.py] and the properties of its
    two codecs: the decoder of DHCP option 82 (class [RFC3046]) and the
    encoder of classless static routes (class [RFC3442]).

    Python values are embedded as follows.
    - A "byte array" is a Python list of non-negative ints: [list N].  No
      upper bound is built into the type; where a statement needs octets
      below 256 it says so with [is_byte].
    - A dict with int keys is a [gmap N _]; [dict.update] is the union in
      which the argument's entries win.
    - A raised exception is the [Raise] outcome of the [result] monad.
    - A [str] is a [list ascii] (Python 2 strings are byte strings). *)

From Stdlib Require Import NArith ZArith String Ascii.
From stdpp Require Import gmap list.
From Equations Require Import Equations.

(** ** Python runtime: exceptions, slices, builtins *)

Inductive exception : Type :=
| ValueError_short (got : nat)
    (* 'Suboption decode failed. Expected at least 2 bytes, got %s bytes' *)
| ValueError_mismatch (suboption_id suboption_len : N) (got : nat)
    (* 'Suboption format mismatch. Suboption id = %s, expected length = %s,
       length = %s' *)
| ValueError_chr (i : N)
    (* chr() arg not in range(256) *)
| ValueError_literal (base : N) (literal : list ascii)
    (* invalid literal for int() with base %d: %s *)
| IndexError
    (* list index out of range *)
| AddrFormatError (addr : list ascii).
    (* netaddr.core.AddrFormatError *)

Inductive result (A : Type) : Type :=
| Ok (a : A)
| Raise (e : exception).
Arguments Ok {A} a.
Arguments Raise {A} e.

#[global] Instance result_ret : MRet result := fun A a => Ok a.
#[global] Instance result_bind : MBind result := fun A B f m =>
  match m with
  | Ok a => f a
  | Raise e => Raise e
  end.

#[global] Instance result_fmap : FMap result := fun A B f m =>
  match m with
  | Ok a => Ok (f a)
  | Raise e => Raise e
  end.

Definition raises {A} (m : result A) : Prop := ∃ e, m = Raise e.
Definition returns {A} (m : result A) : Prop := ∃ a, m = Ok a.

Definition is_byte (b : N) : Prop := (b < 256)%N.

Module Py.

(** [l[i:j]] and [l[i:]] for non-negative bounds. *)
Definition slice {A} (l : list A) (i j : nat) : list A := take (j - i) (drop i l).
Definition slice_from {A} (l : list A) (i : nat) : list A := drop i l.

(** [l[::2]]; [l[1::2]] is [every_other (slice_from l 1)]. *)
Fixpoint every_other {A} (l : list A) : list A :=
  match l with
  | [] => []
  | x :: l' =>
      x :: match l' with
           | [] => []
           | _ :: l'' => every_other l''
           end
  end.

(** [l[i]] for a non-negative index. *)
Definition getitem {A} (l : list A) (i : nat) : result A :=
  match l !! i with
  | Some x => Ok x
  | None => Raise IndexError
  end.

(** [d.update(other)]: the entries of [other] overwrite those of [d]. *)
Definition dict_update {V} (d other : gmap N V) : gmap N V := other ∪ d.

Definition chr (i : N) : result ascii :=
  if (i <? 256)%N then Ok (ascii_of_N i) else Raise (ValueError_chr i).

(** *** [int(s, 16)]

    CPython 2's [int_new] on a [str] with an explicit base: the literal must
    not contain a NUL; [PyInt_FromString] skips leading white space, calls
    [PyOS_strtol] and then requires that something was scanned, that the
    last scanned character is alphanumeric and that only white space
    follows.  The cursor of the C code is a pair of the last character
    passed over (if any) and the rest of the string.  Literals are assumed
    short enough not to overflow a C long (the caller passes two
    characters). *)

Definition isspace (c : ascii) : bool :=
  let n := N_of_ascii c in ((n =? 32) || ((9 <=? n) && (n <=? 13)))%N.

Definition isalnum (c : ascii) : bool :=
  let n := N_of_ascii c in
  (((48 <=? n) && (n <=? 57)) || ((65 <=? n) && (n <=? 90))
   || ((97 <=? n) && (n <=? 122)))%N.

(** [_PyLong_DigitValue]: 37 marks a character that is no digit. *)
Definition digit_value (c : ascii) : N :=
  let n := N_of_ascii c in
  if ((48 <=? n) && (n <=? 57))%N then (n - 48)%N
  else if ((97 <=? n) && (n <=? 122))%N then (n - 87)%N
  else if ((65 <=? n) && (n <=? 90))%N then (n - 55)%N
  else 37%N.

Definition cursor : Type := option ascii * list ascii.

Fixpoint skip_space (last : option ascii) (str : list ascii) : cursor :=
  match str with
  | c :: str' => if isspace c then skip_space (Some c) str' else (last, str)
  | [] => (last, [])
  end.

Fixpoint scan_digits (base acc : N) (last : option ascii) (str : list ascii)
  : N * cursor :=
  match str with
  | c :: str' =>
      if (digit_value c <? base)%N
      then scan_digits base (acc * base + digit_value c)%N (Some c) str'
      else (acc, (last, str))
  | [] => (acc, (last, []))
  end.

Definition is_x (c : ascii) : bool :=
  let n := N_of_ascii c in ((n =? 120) || (n =? 88))%N.

Definition PyOS_strtoul_16 (last : option ascii) (str : list ascii) : N * cursor :=
  let '(last, str) := skip_space last str in
  match str with
  | c0 :: str1 =>
      if (N_of_ascii c0 =? 48)%N then
        match str1 with
        | x :: str2 =>
            if is_x x then
              match str2 with
              | d :: _ =>
                  if (digit_value d <? 16)%N
                  then scan_digits 16 0 (Some x) str2
                  else (0%N, (Some c0, str1))
              | [] => (0%N, (Some c0, str1))
              end
            else scan_digits 16 0 (Some c0) str1
        | [] => (0%N, (Some c0, []))
        end
      else scan_digits 16 0 last str
  | [] => (0%N, (last, []))
  end.

Definition PyOS_strtol_16 (str : list ascii) : Z * cursor :=
  let '(last, str) := skip_space None str in
  match str with
  | sign :: str' =>
      if (N_of_ascii sign =? 43)%N then
        let '(u, cur) := PyOS_strtoul_16 (Some sign) str' in (Z.of_N u, cur)
      else if (N_of_ascii sign =? 45)%N then
        let '(u, cur) := PyOS_strtoul_16 (Some sign) str' in ((- Z.of_N u)%Z, cur)
      else
        let '(u, cur) := PyOS_strtoul_16 last str in (Z.of_N u, cur)
  | [] => (0%Z, (last, []))
  end.

Definition int_16 (literal : list ascii) : result Z :=
  let bad := Raise (ValueError_literal 16 literal) in
  if existsb (λ c, (N_of_ascii c =? 0)%N) literal then bad
  else
    let s := (skip_space None literal).2 in
    let '(x, (last, rest)) := PyOS_strtol_16 s in
    match last with
    | Some c =>
        if isalnum c then
          match (skip_space None rest).2 with
          | [] => Ok x
          | _ :: _ => bad
          end
        else bad
    | None => bad
    end.

End Py.

(** ** class RFC3046 *)

Module RFC3046.

Record t : Type := {
  agent_circuit_id : list (N * list N);
  agent_remote_id : list (N * list N);
  raw : list N;
  suboptions : gmap N (list N)
}.

Equations? _parseSuboption (data : list N) : result (gmap N (list N))
  by wf (length data) lt :=
_parseSuboption (suboption_id :: suboption_len :: tl) :=
  let data := suboption_id :: suboption_len :: tl in
  let suboption_value := Py.slice data 2 (2 + N.to_nat suboption_len) in
  if negb (N.of_nat (length suboption_value) =? suboption_len)%N then
    Raise (ValueError_mismatch suboption_id suboption_len (length suboption_value))
  else
    let suboption := {[ suboption_id := suboption_value ]} in
    if (suboption_len + 2 <? N.of_nat (length data))%N then
      more ← _parseSuboption (Py.slice_from data (2 + N.to_nat suboption_len));
      Ok (Py.dict_update suboption more)
    else Ok suboption;
_parseSuboption data := Raise (ValueError_short (length data)).
Proof. unfold Py.slice_from. rewrite length_drop. simpl. lia. Qed.

Equations? _decodeSuboptionAttr (suboption_value : list N) : list (N * list N)
  by wf (length suboption_value) lt :=
_decodeSuboptionAttr (suboption_attr_type :: suboption_attr_len :: tl) :=
  let suboption_value := suboption_attr_type :: suboption_attr_len :: tl in
  let suboption_attr :=
    [(suboption_attr_type,
      Py.slice suboption_value 2 (2 + N.to_nat suboption_attr_len))] in
  if (suboption_attr_len + 2 <? N.of_nat (length suboption_value))%N then
    suboption_attr ++
    _decodeSuboptionAttr
      (Py.slice_from suboption_value (2 + N.to_nat suboption_attr_len))
  else suboption_attr;
_decodeSuboptionAttr _ := [].
Proof. unfold Py.slice_from. rewrite length_drop. simpl. lia. Qed.

(** The body of the loop over [self.suboptions.iteritems()]; the state is
    the pair of attributes [(agent_circuit_id, agent_remote_id)]. *)
Definition init_step (suboption_id : N) (suboption_value : list N)
    (st : list (N * list N) * list (N * list N))
  : list (N * list N) * list (N * list N) :=
  if (suboption_id =? 1)%N then (_decodeSuboptionAttr suboption_value, st.2)
  else if (suboption_id =? 2)%N then (st.1, _decodeSuboptionAttr suboption_value)
  else st.

Definition __init__ (data : list N) : result t :=
  suboptions ← _parseSuboption data;
  let st := map_fold init_step ([], []) suboptions in
  Ok {| agent_circuit_id := st.1; agent_remote_id := st.2;
        raw := data; suboptions := suboptions |}.

Definition AgentRemoteId (self : t) : result (option (list Z)) :=
  match agent_remote_id self with
  | [] => Ok None
  | (remote_id_type, remote_id) :: _ =>
      if ((remote_id_type =? 0)%N && (length remote_id =? 6)%nat) then
        Ok (Some (Z.of_N <$> remote_id))
      else if ((remote_id_type =? 1)%N && (length remote_id =? 17)%nat) then
        (* buggy D-Link option 82 *)
        remote_id ← mapM Py.chr (filter (λ i, i ≠ 45%N) remote_id);
        remote_id ← mapM (λ pair : ascii * ascii, Py.int_16 [pair.1; pair.2])
                      (zip (Py.every_other remote_id)
                           (Py.every_other (Py.slice_from remote_id 1)));
        Ok (Some remote_id)
      else Ok None
  end.

Definition AgentCircuitId (self : t) : result (option (N * N * N)) :=
  match agent_circuit_id self with
  | [] => Ok None
  | (attr_type, attr_value) :: _ =>
      if ((attr_type =? 0)%N && (length attr_value =? 4)%nat) then
        (* D-Link circuit ID format *)
        a0 ← Py.getitem attr_value 0;
        a1 ← Py.getitem attr_value 1;
        let vlan := (N.shiftl a0 8 + a1)%N in
        module ← Py.getitem attr_value 2;
        port ← Py.getitem attr_value 3;
        Ok (Some (vlan, module, port))
      else Ok None
  end.

Definition __nonzero__ (self : t) : bool := (0 <? length (raw self))%nat.

Definition __len__ (self : t) : nat := length (raw self).

End RFC3046.

(** ** The netaddr package *)

Module netaddr.

(** Modelled from the spec: the [netaddr] package ([IPAddress], [IPNetwork])
    is an external dependency and not part of the sources.  The model covers
    IPv4 only, as the spec's data model does: an address is its 32-bit value,
    a subnet is an address and a prefix length from 0 to 32.  The accepted
    strings are the canonical ones, four decimal octets separated by dots and,
    for a subnet, an optional [/prefix]; an octet or a prefix with a leading
    zero is refused, since [netaddr] may read it in another base. *)

Record IPAddress_t : Type := { value : N }.

Record IPNetwork_t : Type := { ip : N; prefixlen : N }.

Fixpoint split (sep : ascii) (s : list ascii) : list (list ascii) :=
  match s with
  | [] => [[]]
  | c :: s' =>
      if (N_of_ascii c =? N_of_ascii sep)%N then [] :: split sep s'
      else match split sep s' with
           | w :: ws => (c :: w) :: ws
           | [] => [[c]]
           end
  end.

Definition digit (c : ascii) : option N :=
  let n := N_of_ascii c in
  if ((48 <=? n) && (n <=? 57))%N then Some (n - 48)%N else None.

Definition decimal (s : list ascii) : option N :=
  match s with
  | [] => None
  | [c] => digit c
  | c :: _ =>
      if (N_of_ascii c =? 48)%N then None
      else foldl (λ acc c, a ← acc; d ← digit c; Some (a * 10 + d)%N) (Some 0%N) s
  end.

Definition octet (s : list ascii) : option N :=
  n ← decimal s; if (n <? 256)%N then Some n else None.

Definition str_to_int (addr : list ascii) : option N :=
  match split "." addr with
  | [a; b; c; d] =>
      a ← octet a; b ← octet b; c ← octet c; d ← octet d;
      Some (N.shiftl a 24 + N.shiftl b 16 + N.shiftl c 8 + d)%N
  | _ => None
  end.

(** Modelled from the spec: [netaddr.IPAddress(addr)] for a dotted quad. *)
Definition IPAddress (addr : list ascii) : result IPAddress_t :=
  match str_to_int addr with
  | Some v => Ok {| value := v |}
  | None => Raise (AddrFormatError addr)
  end.

(** Modelled from the spec: [netaddr.IPNetwork(addr)] for a dotted quad with
    an optional prefix length; without one the prefix length is 32. *)
Definition IPNetwork (addr : list ascii) : result IPNetwork_t :=
  match split "/" addr with
  | [a] =>
      match str_to_int a with
      | Some v => Ok {| ip := v; prefixlen := 32 |}
      | None => Raise (AddrFormatError addr)
      end
  | [a; p] =>
      match str_to_int a, decimal p with
      | Some v, Some p =>
          if (p <=? 32)%N then Ok {| ip := v; prefixlen := p |}
          else Raise (AddrFormatError addr)
      | _, _ => Raise (AddrFormatError addr)
      end
  | _ => Raise (AddrFormatError addr)
  end.

(** Modelled from the spec: [IPNetwork.network], the address with the host
    bits cleared, computed as [netaddr] does from the host mask. *)
Definition hostmask (net : IPNetwork_t) : N := (N.shiftl 1 (32 - prefixlen net) - 1)%N.

Definition netmask (net : IPNetwork_t) : N := N.lxor 0xFFFFFFFF (hostmask net).

Definition network (net : IPNetwork_t) : IPAddress_t :=
  {| value := N.land (ip net) (netmask net) |}.

(** Modelled from the spec: [IPAddress.words], the four octets of the
    address, most significant first. *)
Definition words (a : IPAddress_t) : N * N * N * N :=
  (N.land (N.shiftr (value a) 24) 255, N.land (N.shiftr (value a) 16) 255,
   N.land (N.shiftr (value a) 8) 255, N.land (value a) 255).

End netaddr.

(** ** class RFC3442 *)

Module RFC3442.

(** An element of [self._routes]: the tuple
    [(network, prefixlen, network.words, gateway.words)]. *)
Definition route : Type :=
  netaddr.IPAddress_t * N * (N * N * N * N) * (N * N * N * N).

Record t : Type := { _routes : list route }.

(** [w[i]] for a tuple of four words and [i] in [xrange(4)]. *)
Definition word (w : N * N * N * N) (i : nat) : N :=
  let '(w0, w1, w2, w3) := w in
  match i with
  | 0 => w0
  | 1 => w1
  | 2 => w2
  | _ => w3
  end.

Definition word_list (w : N * N * N * N) : list N :=
  let '(w0, w1, w2, w3) := w in [w0; w1; w2; w3].

(** The body of the constructor's loop; [routes] stands for the sequence of
    pairs that [routes.iteritems()] yields. *)
Definition init_step (acc : result (list route)) (item : list ascii * list ascii)
  : result (list route) :=
  let '(subnet, gw) := item in
  _routes ← acc;
  n1 ← netaddr.IPNetwork subnet;
  n2 ← netaddr.IPNetwork subnet;
  n3 ← netaddr.IPNetwork subnet;
  a ← netaddr.IPAddress gw;
  Ok (_routes ++ [(netaddr.network n1, netaddr.prefixlen n2,
                   netaddr.words (netaddr.network n3), netaddr.words a)]).

Definition __init__ (routes : list (list ascii * list ascii)) : result t :=
  _routes ← foldl init_step (Ok []) routes;
  Ok {| _routes := _routes |}.

(** The body of the loop over [self._routes]. *)
Definition route_step (result : list N) (r : route) : list N :=
  let '(_, route_1, route_2, route_3) := r in
  let result := result ++ [route_1] in
  let result :=
    foldl (λ result i,
             if (N.of_nat i * 8 <? route_1)%N then result ++ [word route_2 i]
             else result)
          result (seq 0 4) in
  result ++ word_list route_3.

Definition ListClasslessRoutes (self : t) : list N :=
  foldl route_step [] (_routes self).

End RFC3442.

Definition str (s : string) : list ascii := list_ascii_of_string s.

(** ** The wire format of suboptions *)

(** A suboption on the wire: its id, one length byte and the value. *)
Abbreviation tlv := (N * list N)%type (only parsing).

Definition tlv_wire (e : tlv) : list N := e.1 :: N.of_nat (length e.2) :: e.2.

Definition wire (es : list tlv) : list N := concat (tlv_wire <$> es).

(** A well-formed buffer is the concatenation of at least one suboption, each
    with a length byte that agrees with its value. *)
Definition well_formed (data : list N) : Prop := ∃ es, es ≠ [] ∧ data = wire es.

(** The bytes one suboption takes from the buffer. *)
Definition consumed (e : tlv) : nat := 2 + length e.2.

(** The value of the last suboption of [es] with id [i]. *)
Definition last_value (i : N) (es : list tlv) : option (list N) :=
  snd <$> last (filter (λ e, e.1 = i) es).

(** The suboptions [es] as a mapping in which, of two suboptions with one id,
    the later one stays. *)
Fixpoint mapping (es : list tlv) : gmap N (list N) :=
  match es with
  | [] => ∅
  | e :: es' => mapping es' ∪ {[ e.1 := e.2 ]}
  end.

(** What the mapping accounts for: header and value of each of its entries. *)
Definition mapping_bytes (m : gmap N (list N)) : nat :=
  map_fold (λ _ v n, 2 + length v + n) 0 m.

(** The ways in which the decoder fails: on a buffer, or a remainder reached
    by the recursion, of fewer than two bytes, and on a declared length that
    exceeds the bytes that remain. *)
Inductive fails : list N → exception → Prop :=
| fails_short data :
    length data < 2 → fails data (ValueError_short (length data))
| fails_truncated i l tl :
    length tl < N.to_nat l →
    fails (i :: l :: tl) (ValueError_mismatch i l (length tl))
| fails_later i l tl e :
    N.to_nat l < length tl →
    fails (drop (N.to_nat l) tl) e →
    fails (i :: l :: tl) e.

(** The attributes a mapping gives for the suboption [i]. *)
Definition attributes_of (i : N) (m : gmap N (list N)) : list (N * list N) :=
  match m !! i with
  | Some v => RFC3046._decodeSuboptionAttr v
  | None => []
  end.

(** ** The vendor formats of the accessors *)

(** A list of bytes seen as a list of Python ints. *)
Definition ints (l : list N) : list Z := Z.of_N <$> l.

(** The ASCII codes of the hexadecimal digits and their values. *)
Definition is_hexdigit (b : N) : bool :=
  (((48 <=? b) && (b <=? 57)) || ((65 <=? b) && (b <=? 70))
   || ((97 <=? b) && (b <=? 102)))%N.

Definition hex_value (b : N) : N :=
  (if b <=? 57 then b - 48 else if b <=? 70 then b - 55 else b - 87)%N.

(** Consecutive pairs of a list; a last element without a partner is left out. *)
Fixpoint pairs {A} (l : list A) : list (A * A) :=
  match l with
  | a :: b :: l' => (a, b) :: pairs l'
  | _ => []
  end.

(** The dash-separated hexadecimal text of the D-Link Remote ID: the dashes
    (byte 45) are removed and every two digits give one byte. *)
Definition dash_hex_decode (v : list N) : list N :=
  (λ p, 16 * hex_value p.1 + hex_value p.2)%N <$> pairs (filter (λ i, i ≠ 45%N) v).

(** The text of a dash-separated value: no byte but a dash or a digit. *)
Definition dash_hex_text (v : list N) : Prop :=
  Forall (λ b, b = 45%N ∨ is_hexdigit b = true) v.

Definition bytes_below (n : nat) : list N := N.of_nat <$> seq 0 n.

Definition hex_pair_ok (a b : N) : bool :=
  negb (is_hexdigit a && is_hexdigit b) ||
  match Py.int_16 [ascii_of_N a; ascii_of_N b] with
  | Ok z => (z =? Z.of_N (16 * hex_value a + hex_value b))%Z
  | Raise _ => false
  end.

(** ** The encoding of a route *)

(** The four octets of a 32-bit value, most significant first. *)
Definition octets (v : N) : list N :=
  [N.land (N.shiftr v 24) 255; N.land (N.shiftr v 16) 255;
   N.land (N.shiftr v 8) 255; N.land v 255].

(** A 32-bit address with the bits after the first [p] set to zero. *)
Definition clear_host_bits (v p : N) : N := N.shiftl (N.shiftr v (32 - p)) (32 - p).

(** The number of octets that hold a prefix of [p] bits: [ceil(p / 8)]. *)
Definition significant_octets (p : N) : nat := N.to_nat ((p + 7) / 8).

(** The tuple the constructor appends for one pair of strings. *)
Definition route_of (item : list ascii * list ascii) : result RFC3442.route :=
  RFC3442.init_step (Ok []) item ≫= λ rs,
    match rs with
    | [r] => Ok r
    | _ => Raise IndexError
    end.

(** An IPv4 route as an element of [self._routes]: a prefix length of at most
    32, a 32-bit network address without host bits, the four octets of that
    address, and the four octets of a 32-bit gateway. *)
Definition ipv4_route (r : RFC3442.route) : Prop :=
  let '(nw, p, w, g) := r in
  (p ≤ 32)%N ∧ (netaddr.value nw < 2 ^ 32)%N ∧
  netaddr.value nw = clear_host_bits (netaddr.value nw) p ∧
  w = netaddr.words nw ∧
  ∃ gw, (netaddr.value gw < 2 ^ 32)%N ∧ g = netaddr.words gw.

(** Construction followed by [ListClasslessRoutes]. *)
Definition encode (routes : list (list ascii * list ascii)) : result (list N) :=
  RFC3442.ListClasslessRoutes <$> RFC3442.__init__ routes.

(** ** Properties of the suboption decoder *)

Section parse.

Import RFC3046.

Lemma parse_cons i l tl :
  _parseSuboption (i :: l :: tl) =
  if decide (length tl < N.to_nat l) then
    Raise (ValueError_mismatch i l (length tl))
  else if decide (N.to_nat l < length tl) then
    more ← _parseSuboption (drop (N.to_nat l) tl);
    Ok (more ∪ {[ i := take (N.to_nat l) tl ]})
  else Ok {[ i := tl ]}.
Proof.
  simp _parseSuboption. cbn zeta.
  unfold Py.slice, Py.slice_from, Py.dict_update.
  replace (2 + N.to_nat l - 2) with (N.to_nat l) by lia.
  cbn [drop Nat.add]. rewrite !drop_0, length_take. cbn [length].
  repeat case_decide.
  - rewrite (proj2 (N.eqb_neq _ _)) by lia. cbn. f_equal. f_equal. lia.
  - rewrite (proj2 (N.eqb_eq _ _)) by lia. cbn.
    rewrite (proj2 (N.ltb_lt _ _)) by lia. reflexivity.
  - rewrite (proj2 (N.eqb_eq _ _)) by lia. cbn.
    rewrite (proj2 (N.ltb_ge _ _)) by lia.
    rewrite take_ge by lia. reflexivity.
Qed.

Lemma parse_short data :
  length data < 2 → _parseSuboption data = Raise (ValueError_short (length data)).
Proof.
  destruct data as [|? [|? ?]]; cbn [length]; intros; try lia;
    simp _parseSuboption; reflexivity.
Qed.

Lemma wire_cons e es : wire (e :: es) = e.1 :: N.of_nat (length e.2) :: e.2 ++ wire es.
Proof. reflexivity. Qed.

Lemma wire_app es1 es2 : wire (es1 ++ es2) = wire es1 ++ wire es2.
Proof. unfold wire. rewrite fmap_app. apply concat_app. Qed.

Lemma wire_length es : length (wire es) = sum_list (consumed <$> es).
Proof.
  induction es as [|e es IH]; [reflexivity|].
  rewrite wire_cons, fmap_cons. cbn [length sum_list].
  rewrite length_app, IH. unfold consumed, id. lia.
Qed.

(** A buffer is the wire form of at most one sequence of suboptions. *)
Lemma wire_inj es1 es2 : wire es1 = wire es2 → es1 = es2.
Proof.
  revert es2. induction es1 as [|[i1 v1] es1 IH]; intros [|[i2 v2] es2]; try done.
  rewrite !wire_cons. cbn [fst snd]. intros [= -> Hlen%Nat2N.inj Happ].
  apply app_inj_1 in Happ as [-> Hrest]; [|done]. by rewrite (IH _ Hrest).
Qed.

Lemma parse_wire e es : _parseSuboption (wire (e :: es)) = Ok (mapping (e :: es)).
Proof.
  revert e. induction es as [|e' es IH]; intros [i v].
  - rewrite wire_cons. cbn [fst snd wire fmap list_fmap concat].
    rewrite app_nil_r, parse_cons, Nat2N.id.
    repeat case_decide; try lia. cbn. by rewrite (left_id_L ∅ (∪)).
  - rewrite wire_cons. cbn [fst snd]. rewrite parse_cons, Nat2N.id.
    rewrite length_app.
    assert (0 < length (wire (e' :: es))) by (rewrite wire_cons; cbn [length]; lia).
    repeat case_decide; try lia.
    rewrite drop_app_length, take_app_length, IH. reflexivity.
Qed.

Lemma filter_absent_id (es : list tlv) i :
  i ∉ es.*1 → filter (λ e : tlv, e.1 = i) es = [].
Proof.
  induction es as [|[j v] es IH]; [done|].
  rewrite fmap_cons, not_elem_of_cons. cbn [fst]. intros [Hne Hi].
  rewrite filter_cons. cbn [fst]. rewrite decide_False by done. auto.
Qed.

Lemma mapping_lookup es i : mapping es !! i = last_value i es.
Proof.
  unfold last_value. induction es as [|[j v] es IH]; [apply lookup_empty|].
  cbn [mapping fst snd]. rewrite lookup_union, IH. clear IH.
  rewrite filter_cons. cbn [fst]. case_decide as Hj.
  - subst j. rewrite lookup_singleton_eq.
    destruct (filter _ es) as [|e' l] eqn:Hf; [reflexivity|].
    change (last ((i, v) :: e' :: l)) with (last (e' :: l)).
    destruct (last (e' :: l)) eqn:Hl; [reflexivity|].
    by apply last_None in Hl.
  - rewrite lookup_singleton_ne by done.
    by destruct (snd <$> last (filter (λ e : tlv, e.1 = i) es)).
Qed.

Lemma parse_wire_ok data :
  well_formed data → ∃ es, data = wire es ∧ _parseSuboption data = Ok (mapping es).
Proof.
  intros ([|e es] & Hne & ->); [done|].
  exists (e :: es). split; [done|]. apply parse_wire.
Qed.

Lemma parse_ok_inv data m : _parseSuboption data = Ok m → well_formed data.
Proof.
  remember (length data) as n eqn:Hn. revert data m Hn.
  induction n as [n IH] using lt_wf_ind. intros data m Hn.
  destruct data as [|i [|l tl]]; [by simp _parseSuboption..|].
  rewrite parse_cons. repeat case_decide; [done| |].
  - destruct (_parseSuboption (drop (N.to_nat l) tl)) as [more|] eqn:Hrest; [|done].
    intros _. cbn [length] in Hn.
    destruct (IH (length (drop (N.to_nat l) tl))
                ltac:(rewrite length_drop; lia) _ _ eq_refl Hrest)
      as (es & Hes & Hw).
    exists ((i, take (N.to_nat l) tl) :: es). split; [done|].
    rewrite wire_cons. cbn [fst snd]. rewrite length_take, <- Hw.
    rewrite Nat.min_l by lia. by rewrite N2Nat.id, take_drop.
  - intros _. exists [(i, tl)]. split; [done|].
    rewrite wire_cons. cbn [fst snd wire fmap list_fmap concat].
    rewrite app_nil_r. f_equal. f_equal. lia.
Qed.

Lemma parse_fails data e : _parseSuboption data = Raise e ↔ fails data e.
Proof.
  split.
  - remember (length data) as n eqn:Hn. revert data e Hn.
    induction n as [n IH] using lt_wf_ind. intros data e Hn.
    destruct data as [|i [|l tl]].
    + simp _parseSuboption. intros [= <-]. apply (fails_short []). cbn. lia.
    + simp _parseSuboption. intros [= <-]. apply (fails_short [i]). cbn. lia.
    + rewrite parse_cons. repeat case_decide; [| |done].
      * intros [= <-]. by apply fails_truncated.
      * destruct (_parseSuboption (drop (N.to_nat l) tl)) as [more|e'] eqn:Hrest;
          [done|]. intros [= <-]. cbn [length] in Hn.
        apply fails_later; [done|].
        eapply (IH (length (drop (N.to_nat l) tl))); [|done..].
        rewrite length_drop. lia.
  - induction 1 as [data Hlen|i l tl Hlen|i l tl e Hlen _ IH].
    + by apply parse_short.
    + rewrite parse_cons. by rewrite decide_True.
    + rewrite parse_cons, decide_False, decide_True by lia. by rewrite IH.
Qed.

Lemma mapping_bytes_insert i v (m : gmap N (list N)) :
  m !! i = None → mapping_bytes (<[i:=v]> m) = 2 + length v + mapping_bytes m.
Proof.
  intros Hi. unfold mapping_bytes.
  rewrite map_fold_insert_L; [done| |done]. intros. lia.
Qed.

Lemma mapping_bytes_distinct es :
  NoDup es.*1 → mapping_bytes (mapping es) = length (wire es).
Proof.
  induction es as [|[i v] es IH]; [done|].
  rewrite fmap_cons, NoDup_cons. cbn [fst]. intros [Hi Hnd].
  cbn [mapping fst snd]. rewrite wire_cons. cbn [length fst snd].
  rewrite length_app, <- IH by done.
  assert (mapping es !! i = None) as Hnone.
  { rewrite mapping_lookup. unfold last_value. by rewrite filter_absent_id. }
  rewrite <- insert_union_singleton_r by done.
  rewrite mapping_bytes_insert by done. lia.
Qed.

(** C3: when a well-formed buffer holds two suboptions with the same id (and
    no further one with that id after them), the mapping returned by the
    decoder holds the value of the later one. *)
Theorem parse_last_occurrence_wins (es1 es2 es3 : list tlv) (i : N) (v1 v2 : list N) :
  i ∉ es3.*1 →
  ∃ m, _parseSuboption (wire (es1 ++ (i, v1) :: es2 ++ (i, v2) :: es3)) = Ok m ∧
       m !! i = Some v2.
Proof.
  intros Hi.
  destruct (es1 ++ (i, v1) :: es2 ++ (i, v2) :: es3) as [|e es] eqn:Hes.
  { by destruct es1. }
  rewrite parse_wire, <- Hes. eexists. split; [done|].
  rewrite mapping_lookup. unfold last_value.
  rewrite filter_app, filter_cons, filter_app, filter_cons. cbn [fst].
  rewrite !decide_True by done.
  rewrite (filter_absent_id es3) by done.
  - set (a := filter _ es1). set (b := filter _ es2).
    replace (a ++ (i, v1) :: b ++ [(i, v2)])
      with ((a ++ (i, v1) :: b) ++ [(i, v2)]) by (by rewrite <- app_assoc).
    by rewrite last_snoc.
Qed.

Lemma parse_last_occurrence_wins_witness :
  (1%N ∉ fst <$> ([(2, [5])]%N : list tlv)) ∧
  ∃ m, _parseSuboption
         (wire ([(3, [])] ++ (1, [7; 8]) :: [(2, [4])] ++ (1, [9]) :: [(2, [5])]))%N
       = Ok m ∧ m !! 1%N = Some [9%N].
Proof.
  assert (1%N ∉ fst <$> ([(2, [5])]%N : list tlv)) as Hi.
  { cbn. intros H. apply list_elem_of_singleton in H. discriminate. }
  split; [exact Hi|].
  exact (parse_last_occurrence_wins [(3, [])]%N [(2, [4])]%N [(2, [5])]%N 1 [7; 8]%N [9]%N Hi).
Defined.

(** C4: the decoder raises exactly on malformed input.  It raises the
    too-short error when the buffer, or a remainder the recursion reaches, has
    fewer than two bytes, and the mismatch error when a declared length
    exceeds the bytes that remain; it raises in no other case, that is, on no
    well-formed buffer.  [5] and [1, 10, 0x41] are rejected. *)
Theorem parse_raises_exactly_on_malformed :
  (∀ data e, _parseSuboption data = Raise e ↔ fails data e) ∧
  (∀ data, raises (_parseSuboption data) ↔ ¬ well_formed data) ∧
  _parseSuboption [5]%N = Raise (ValueError_short 1) ∧
  _parseSuboption [1; 10; 0x41]%N = Raise (ValueError_mismatch 1 10 1).
Proof.
  split_and!.
  - apply parse_fails.
  - intros data. split.
    + intros [e He] Hwf. apply parse_wire_ok in Hwf as (es & _ & Hok).
      congruence.
    + intros Hwf. destruct (_parseSuboption data) as [m|e] eqn:Hp.
      * exfalso. eauto using parse_ok_inv.
      * by exists e.
  - apply (parse_short [5%N]). cbn. lia.
  - rewrite parse_cons. reflexivity.
Qed.

End parse.

(** ** Properties of the attribute decoder and of the constructor *)

Section agent_info.

Import RFC3046.

Lemma decode_cons t l tl :
  _decodeSuboptionAttr (t :: l :: tl) =
  (t, take (N.to_nat l) tl) ::
  (if decide (N.to_nat l < length tl)
   then _decodeSuboptionAttr (drop (N.to_nat l) tl) else []).
Proof.
  simp _decodeSuboptionAttr. cbn zeta. unfold Py.slice, Py.slice_from.
  replace (2 + N.to_nat l - 2) with (N.to_nat l) by lia.
  cbn [drop Nat.add length]. rewrite !drop_0. case_decide.
  - by rewrite (proj2 (N.ltb_lt _ _)) by lia.
  - by rewrite (proj2 (N.ltb_ge _ _)) by lia.
Qed.

Lemma decode_short v : length v < 2 → _decodeSuboptionAttr v = [].
Proof.
  destruct v as [|? [|? ?]]; cbn [length]; intros; try lia;
    by simp _decodeSuboptionAttr.
Qed.



Lemma init_loop m :
  map_fold init_step ([], []) m = (attributes_of 1 m, attributes_of 2 m).
Proof.
  apply (map_fold_weak_ind (λ st m, st = (attributes_of 1 m, attributes_of 2 m))).
  - done.
  - intros i v m' st Hi ->. unfold init_step, attributes_of. cbn [fst snd].
    destruct (N.eqb_spec i 1) as [->|H1].
    { rewrite lookup_insert_eq, lookup_insert_ne by done. done. }
    destruct (N.eqb_spec i 2) as [->|H2].
    { rewrite lookup_insert_eq, lookup_insert_ne by done. done. }
    by rewrite !lookup_insert_ne by done.
Qed.

Lemma init_ok data self :
  __init__ data = Ok self ↔
  ∃ m, _parseSuboption data = Ok m ∧
       self = {| agent_circuit_id := attributes_of 1 m;
                 agent_remote_id := attributes_of 2 m;
                 raw := data; suboptions := m |}.
Proof.
  unfold __init__. destruct (_parseSuboption data) as [m|e]; cbn.
  - rewrite init_loop. cbn [fst snd]. split.
    + intros [= <-]. eauto.
    + intros (m' & [= <-] & ->). done.
  - split; [done|]. by intros (? & ? & _).
Qed.

Lemma init_raise data e : __init__ data = Raise e ↔ _parseSuboption data = Raise e.
Proof. unfold __init__. destruct (_parseSuboption data); cbn; naive_solver. Qed.

(** C10: the constructor decodes the buffer without condition, so a buffer
    of length 0 or 1 makes it raise the decoder's too-short error, and every
    object it returns has a raw buffer of at least two bytes: it is true as
    a boolean and its size is not 0. *)
Theorem init_short_buffer_raises (data : list N) :
  (length data < 2 → __init__ data = Raise (ValueError_short (length data))) ∧
  (∀ self, __init__ data = Ok self →
     raw self = data ∧ 2 ≤ length data ∧
     __nonzero__ self = true ∧ __len__ self ≠ 0).
Proof.
  split.
  - intros Hlen. by apply init_raise, parse_short.
  - intros self (m & Hp & ->)%init_ok. unfold __nonzero__, __len__. cbn [raw].
    assert (2 ≤ length data) as Hlen.
    { destruct (decide (length data < 2)) as [Hlt|]; [|lia].
      apply parse_short in Hlt. congruence. }
    split_and!; [done|done| |lia]. by apply Nat.ltb_lt; lia.
Qed.

Lemma init_short_buffer_raises_witness :
  (__init__ [] = Raise (ValueError_short 0)) ∧
  (__init__ [5%N] = Raise (ValueError_short 1)) ∧
  (∃ self, __init__ [1; 1; 7]%N = Ok self ∧
           __nonzero__ self = true ∧ __len__ self ≠ 0).
Proof.
  split_and!.
  - apply (proj1 (init_short_buffer_raises [])). cbn. lia.
  - apply (proj1 (init_short_buffer_raises [5%N])). cbn. lia.
  - eexists. split; [vm_compute; reflexivity|].
    eapply (proj2 (init_short_buffer_raises [1; 1; 7]%N)). vm_compute. reflexivity.
Defined.

End agent_info.

(** ** Properties of the accessors *)

Section accessors.

Import RFC3046.

Lemma mapM_ok {A B} (f : A → result B) (g : A → B) (l : list A) :
  Forall (λ x, f x = Ok (g x)) l → mapM f l = Ok (g <$> l).
Proof.
  induction 1 as [|x l Hx _ IH]; [done|].
  cbn [mapM]. rewrite Hx. cbn. rewrite IH. done.
Qed.

Lemma pairs_ind {A} (P : list A → Prop) :
  P [] → (∀ a, P [a]) → (∀ a b l, P l → P (a :: b :: l)) → ∀ l, P l.
Proof.
  intros Hnil Hone Hstep.
  assert (∀ l, P l ∧ ∀ a, P (a :: l)) as H; [|intros l; apply H].
  induction l as [|b l [IH1 IH2]]; split; auto.
Qed.

Lemma zip_every_other {A} (l : list A) :
  zip (Py.every_other l) (Py.every_other (Py.slice_from l 1)) = pairs l.
Proof.
  unfold Py.slice_from.
  induction l as [|a|a b l IH] using pairs_ind; [done|done|].
  cbn [Py.every_other drop pairs zip zip_with]. f_equal.
  destruct l as [|c l]; [done|]. exact IH.
Qed.

Lemma hex_pair_table :
  forallb (λ a, forallb (hex_pair_ok a) (bytes_below 128)) (bytes_below 128) = true.
Proof. vm_compute. reflexivity. Qed.

Lemma elem_of_bytes_below (b : N) n : (b < N.of_nat n)%N → b ∈ bytes_below n.
Proof.
  intros Hb. unfold bytes_below. apply list_elem_of_fmap.
  exists (N.to_nat b). split; [lia|]. apply elem_of_seq. lia.
Qed.

Lemma is_hexdigit_range b : is_hexdigit b = true → (48 ≤ b < 103)%N.
Proof.
  unfold is_hexdigit. rewrite !orb_true_iff, !andb_true_iff, !N.leb_le. lia.
Qed.

Lemma int_16_hex_pair a b :
  is_hexdigit a = true → is_hexdigit b = true →
  Py.int_16 [ascii_of_N a; ascii_of_N b] = Ok (Z.of_N (16 * hex_value a + hex_value b)).
Proof.
  intros Ha Hb. pose proof hex_pair_table as Ht.
  rewrite forallb_forall in Ht.
  specialize (Ht a). rewrite forallb_forall in Ht.
  assert (hex_pair_ok a b = true) as Hok.
  { apply Ht; apply list_elem_of_In, elem_of_bytes_below;
      [apply is_hexdigit_range in Ha | apply is_hexdigit_range in Hb]; lia. }
  unfold hex_pair_ok in Hok. rewrite Ha, Hb in Hok. cbn [andb negb orb] in Hok.
  destruct (Py.int_16 _) as [z|]; [|done]. by apply Z.eqb_eq in Hok as ->.
Qed.

Lemma int_16_pairs (bs : list N) :
  Forall (λ b, is_hexdigit b = true) bs →
  mapM (λ pair : ascii * ascii, Py.int_16 [pair.1; pair.2]) (pairs (ascii_of_N <$> bs))
  = Ok (ints ((λ p, 16 * hex_value p.1 + hex_value p.2)%N <$> pairs bs)).
Proof.
  induction bs as [|a|a b bs IH] using pairs_ind; [done|done|].
  rewrite !Forall_cons. intros (Ha & Hb & Hbs).
  rewrite !fmap_cons. cbn [pairs mapM fst snd].
  rewrite int_16_hex_pair by done. cbn. rewrite IH by done. done.
Qed.

Lemma chr_bytes (bs : list N) :
  Forall (λ b, is_hexdigit b = true) bs → mapM Py.chr bs = Ok (ascii_of_N <$> bs).
Proof.
  intros Hbs. apply mapM_ok. eapply Forall_impl; [exact Hbs|].
  intros b Hb%is_hexdigit_range. unfold Py.chr.
  by rewrite (proj2 (N.ltb_lt _ _)) by lia.
Qed.

Lemma dash_hex_text_digits v :
  dash_hex_text v → Forall (λ b, is_hexdigit b = true) (filter (λ i, i ≠ 45%N) v).
Proof.
  unfold dash_hex_text. induction 1 as [|b v Hb _ IH]; [constructor|].
  rewrite filter_cons. case_decide; [|done]. constructor; [|done].
  by destruct Hb.
Qed.

Lemma remote_id_dash_hex self v rest :
  agent_remote_id self = (1%N, v) :: rest → length v = 17 → dash_hex_text v →
  AgentRemoteId self = Ok (Some (ints (dash_hex_decode v))).
Proof.
  intros Hattr Hlen Htext%dash_hex_text_digits. unfold AgentRemoteId.
  rewrite Hattr, Hlen. cbn [N.eqb Pos.eqb andb Nat.eqb].
  rewrite chr_bytes by done. cbn [mbind result_bind].
  by rewrite zip_every_other, int_16_pairs.
Qed.

Lemma shiftl_add_lor a b : is_byte b → (N.shiftl a 8 + b = N.lor (N.shiftl a 8) b)%N.
Proof.
  unfold is_byte. intros Hb.
  assert (N.land (N.shiftl a 8) b = 0%N) as Hland.
  { apply N.bits_inj. intros k. rewrite N.land_spec, N.bits_0.
    destruct (decide (k < 8)%N).
    - by rewrite N.shiftl_spec_low.
    - destruct (decide (b = 0%N)) as [->|]; [by rewrite N.bits_0, andb_false_r|].
      rewrite (N.bits_above_log2 b k), andb_false_r; [done|].
      apply N.log2_lt_pow2; [lia|].
      apply N.lt_le_trans with (2 ^ 8)%N; [done|]. apply N.pow_le_mono_r; lia. }
  rewrite N.add_nocarry_lxor by done. by apply N.lxor_lor.
Qed.

(** C8: when the first Circuit ID attribute has type 0 and the four bytes
    [a, b, c, d] as its value, [AgentCircuitId] returns the triple
    [((a << 8) | b, c, d)], the first component a 16-bit number; for any other
    pair of type and length it returns [None].  The buffer that carries the
    attribute value [01 02 03 04] in suboption 1 gives [(258, 3, 4)]. *)
Theorem circuit_id_dlink_format :
  (∀ self t v rest, agent_circuit_id self = (t, v) :: rest →
     (∀ a b c d, t = 0%N → v = [a; b; c; d] → is_byte a → is_byte b →
        AgentCircuitId self = Ok (Some (N.lor (N.shiftl a 8) b, c, d)) ∧
        (N.lor (N.shiftl a 8) b < 65536)%N) ∧
     (¬ (t = 0%N ∧ length v = 4) → AgentCircuitId self = Ok None)) ∧
  (__init__ [1; 6; 0; 4; 0x01; 0x02; 0x03; 0x04]%N ≫= AgentCircuitId
   = Ok (Some (258, 3, 4)%N)).
Proof.
  split; [|vm_compute; reflexivity].
  intros self t v rest Hattr. unfold AgentCircuitId. rewrite Hattr. split.
  - intros a b c d -> -> Ha Hb. cbn. rewrite <- shiftl_add_lor by done.
    split; [done|]. unfold is_byte in *. rewrite N.shiftl_mul_pow2. lia.
  - intros Hne. destruct (N.eqb_spec t 0) as [->|]; [|done].
    destruct (Nat.eqb_spec (length v) 4); [|done]. naive_solver.
Qed.

Lemma circuit_id_dlink_format_witness :
  AgentCircuitId {| agent_circuit_id := [(0, [1; 2; 3; 4])]%N; agent_remote_id := [];
                    raw := [1; 6; 0; 4; 1; 2; 3; 4]%N;
                    suboptions := {[ 1%N := [0; 4; 1; 2; 3; 4]%N ]} |}
    = Ok (Some (N.lor (N.shiftl 1 8) 2, 3, 4)%N) ∧
  AgentCircuitId {| agent_circuit_id := [(7, [1; 2; 3; 4])]%N; agent_remote_id := [];
                    raw := [1; 6; 7; 4; 1; 2; 3; 4]%N;
                    suboptions := {[ 1%N := [7; 4; 1; 2; 3; 4]%N ]} |}
    = Ok None.
Proof.
  split.
  - match goal with |- AgentCircuitId ?self = _ =>
      refine (proj1 (proj1 (proj1 circuit_id_dlink_format self 0%N [1; 2; 3; 4]%N []
                              eq_refl)
                       1%N 2%N 3%N 4%N eq_refl eq_refl _ _)); unfold is_byte; lia
    end.
  - match goal with |- AgentCircuitId ?self = _ =>
      refine (proj2 (proj1 circuit_id_dlink_format self 7%N [1; 2; 3; 4]%N [] eq_refl) _)
    end.
    intros [H _]. discriminate H.
Defined.

(** C7: when the first Remote ID attribute has type 0 and a value of six
    bytes, [AgentRemoteId] returns this value as it is; when it has type 1 and
    a value of 17 bytes that are hexadecimal digits and dashes, it returns the
    bytes obtained by removing the dashes (byte 45) and reading every two
    digits as one byte.  For the text AA-BB-CC-DD-EE-FF in suboption 2 the
    result is [0xAA, 0xBB, 0xCC, 0xDD, 0xEE, 0xFF]. *)
Theorem remote_id_formats :
  (∀ self t v rest, agent_remote_id self = (t, v) :: rest →
     (t = 0%N → length v = 6 → AgentRemoteId self = Ok (Some (ints v))) ∧
     (t = 1%N → length v = 17 → dash_hex_text v →
        AgentRemoteId self = Ok (Some (ints (dash_hex_decode v))))) ∧
  (__init__ ([2; 19; 1; 17]%N ++
             [65; 65; 45; 66; 66; 45; 67; 67; 45; 68; 68; 45; 69; 69; 45; 70; 70]%N)
     ≫= AgentRemoteId
   = Ok (Some [0xAA; 0xBB; 0xCC; 0xDD; 0xEE; 0xFF]%Z)).
Proof.
  split; [|vm_compute; reflexivity].
  intros self t v rest Hattr. split.
  - intros -> Hlen. unfold AgentRemoteId. by rewrite Hattr, Hlen.
  - intros ->. by apply (remote_id_dash_hex self v rest).
Qed.

Lemma remote_id_formats_witness :
  AgentRemoteId {| agent_circuit_id := []; agent_remote_id := [(0, [1; 2; 3; 4; 5; 6])]%N;
                   raw := [2; 8; 0; 6; 1; 2; 3; 4; 5; 6]%N;
                   suboptions := {[ 2%N := [0; 6; 1; 2; 3; 4; 5; 6]%N ]} |}
    = Ok (Some (ints [1; 2; 3; 4; 5; 6]%N)) ∧
  AgentRemoteId {| agent_circuit_id := [];
                   agent_remote_id :=
                     [(1, [48; 49; 45; 50; 51; 45; 52; 53; 45; 54; 55; 45; 56; 57; 45;
                           97; 70])]%N;
                   raw := [2; 0]%N; suboptions := ∅ |}
    = Ok (Some (ints (dash_hex_decode
                  [48; 49; 45; 50; 51; 45; 52; 53; 45; 54; 55; 45; 56; 57; 45; 97; 70]%N))).
Proof.
  split.
  - match goal with |- AgentRemoteId ?self = _ =>
      exact (proj1 (proj1 remote_id_formats self 0%N [1; 2; 3; 4; 5; 6]%N [] eq_refl)
               eq_refl eq_refl)
    end.
  - match goal with |- AgentRemoteId ?self = _ =>
      refine (proj2 (proj1 remote_id_formats self 1%N _ [] eq_refl) eq_refl eq_refl _)
    end.
    unfold dash_hex_text.
    repeat (constructor; [first [by left | by right]|]). constructor.
Defined.




End accessors.

(** ** Properties of the route encoder *)

Section routes.

Import netaddr RFC3442.

Lemma octet_bound s n : octet s = Some n → (n < 256)%N.
Proof.
  unfold octet. destruct (decimal s) as [m|]; [|done]. cbn.
  destruct (N.ltb_spec m 256); [|done]. by intros [= <-].
Qed.

Lemma str_to_int_bound addr v : str_to_int addr = Some v → (v < 2 ^ 32)%N.
Proof.
  unfold str_to_int.
  destruct (split "." addr) as [|a [|b [|c [|d [|]]]]]; try done.
  destruct (octet a) as [na|] eqn:Ha; [|done].
  destruct (octet b) as [nb|] eqn:Hb; [|done].
  destruct (octet c) as [nc|] eqn:Hc; [|done].
  destruct (octet d) as [nd|] eqn:Hd; [|done].
  cbn. intros [= <-].
  apply octet_bound in Ha, Hb, Hc, Hd. rewrite !N.shiftl_mul_pow2.
  change (2 ^ 24)%N with 16777216%N. change (2 ^ 16)%N with 65536%N.
  change (2 ^ 8)%N with 256%N. change (2 ^ 32)%N with 4294967296%N. lia.
Qed.

Lemma IPNetwork_range addr net :
  IPNetwork addr = Ok net → (ip net < 2 ^ 32)%N ∧ (prefixlen net ≤ 32)%N.
Proof.
  unfold IPNetwork. destruct (split "/" addr) as [|a [|p [|]]]; try done.
  - destruct (str_to_int a) as [v|] eqn:Hv; [|done]. intros [= <-]. cbn.
    split; [by eapply str_to_int_bound | lia].
  - destruct (str_to_int a) as [v|] eqn:Hv; [|done].
    destruct (decimal p) as [n|]; [|done].
    destruct (N.leb_spec n 32); [|done]. intros [= <-]. cbn.
    split; [by eapply str_to_int_bound | done].
Qed.

Lemma network_clear_host_bits net :
  (ip net < 2 ^ 32)%N → (prefixlen net ≤ 32)%N →
  value (network net) = clear_host_bits (ip net) (prefixlen net).
Proof.
  intros Hip Hp. unfold network, netmask, hostmask, clear_host_bits. cbn [value].
  set (h := (32 - prefixlen net)%N).
  change 0xFFFFFFFF%N with (N.ones 32).
  replace (N.shiftl 1 h - 1)%N with (N.ones h)
    by (unfold N.ones; by rewrite N.sub_1_r).
  apply N.bits_inj. intros k.
  rewrite N.land_spec, N.lxor_spec.
  destruct (decide (k < h)%N) as [Hk|Hk].
  - rewrite N.shiftl_spec_low by done.
    rewrite !N.ones_spec_low by lia. by rewrite andb_false_r.
  - rewrite N.shiftl_spec_high' by lia. rewrite N.shiftr_spec'.
    replace (k - h + h)%N with k by lia.
    rewrite (N.ones_spec_high h k) by lia.
    destruct (decide (k < 32)%N).
    + rewrite N.ones_spec_low by done. by rewrite andb_true_r.
    + rewrite N.ones_spec_high by lia. cbn [xorb]. rewrite andb_false_r.
      destruct (decide (ip net = 0%N)) as [->|]; [by rewrite N.bits_0|].
      symmetry. apply N.bits_above_log2.
      apply N.lt_le_trans with 32%N; [apply N.log2_lt_pow2; lia | lia].
Qed.

Lemma words_octets a : word_list (words a) = octets (value a).
Proof. reflexivity. Qed.

Lemma significant_octets_cases p :
  (p = 0%N ∧ significant_octets p = 0) ∨
  ((0 < p ≤ 8)%N ∧ significant_octets p = 1) ∨
  ((8 < p ≤ 16)%N ∧ significant_octets p = 2) ∨
  ((16 < p ≤ 24)%N ∧ significant_octets p = 3) ∨
  ((24 < p)%N ∧ 4 ≤ significant_octets p).
Proof.
  unfold significant_octets.
  pose proof (N.div_mod (p + 7) 8 ltac:(done)) as Hdiv.
  pose proof (N.mod_lt (p + 7) 8 ltac:(done)) as Hmod.
  remember ((p + 7) / 8)%N as q eqn:Hq. remember ((p + 7) mod 8)%N as r eqn:Hr.
  clear Hq Hr. lia.
Qed.

(** The fragment the loop body appends for one route. *)
Lemma route_step_fragment result nw p w g :
  route_step result (nw, p, w, g) =
  result ++ p :: take (significant_octets p) (word_list w) ++ word_list g.
Proof.
  destruct w as [[[w0 w1] w2] w3].
  unfold route_step. cbn [seq foldl word word_list N.of_nat Pos.of_succ_nat Pos.succ].
  destruct (significant_octets_cases p) as [[-> ->]|[[H ->]|[[H ->]|[[H ->]|[H Hs]]]]];
    try rewrite (take_ge _ (significant_octets p)) by (cbn; lia);
    repeat match goal with
           | |- context [(?a <? ?b)%N] => destruct (N.ltb_spec a b); try lia
           end;
    cbn [take]; by rewrite <- ?app_assoc.
Qed.

Lemma route_step_app result r : route_step result r = result ++ route_step [] r.
Proof. destruct r as [[[nw p] w] g]. by rewrite !route_step_fragment. Qed.

Lemma routes_foldl result rs :
  foldl route_step result rs = result ++ concat (route_step [] <$> rs).
Proof.
  revert result. induction rs as [|r rs IH]; intros result.
  - by rewrite app_nil_r.
  - cbn [foldl]. rewrite IH, route_step_app, fmap_cons. cbn [concat].
    by rewrite app_assoc.
Qed.

Lemma init_step_raise e item : init_step (Raise e) item = Raise e.
Proof. by destruct item. Qed.

Lemma init_step_ok acc item :
  init_step (Ok acc) item = r ← route_of item; Ok (acc ++ [r]).
Proof.
  unfold route_of, init_step. destruct item as [subnet gw]. cbn.
  destruct (IPNetwork subnet); cbn; [|done].
  by destruct (IPAddress gw).
Qed.

Lemma init_foldl_raise e routes : foldl init_step (Raise e) routes = Raise e.
Proof. induction routes; [done|]. cbn [foldl]. by rewrite init_step_raise. Qed.

Lemma init_foldl acc routes :
  foldl init_step (Ok acc) routes = rs ← mapM route_of routes; Ok (acc ++ rs).
Proof.
  revert acc. induction routes as [|item routes IH]; intros acc.
  - cbn. by rewrite app_nil_r.
  - cbn [foldl mapM]. rewrite init_step_ok.
    destruct (route_of item) as [r|e]; cbn.
    + rewrite IH. destruct (mapM route_of routes); cbn; [|done].
      by rewrite <- app_assoc.
    + apply init_foldl_raise.
Qed.

Lemma encode_routes routes :
  encode routes = rs ← mapM route_of routes; Ok (concat (route_step [] <$> rs)).
Proof.
  unfold encode, __init__. rewrite init_foldl.
  destruct (mapM route_of routes) as [rs|]; cbn; [|done].
  unfold ListClasslessRoutes. cbn [_routes]. by rewrite routes_foldl.
Qed.

Lemma encode_one item : encode [item] = route_step [] <$> route_of item.
Proof.
  rewrite encode_routes. cbn [mapM]. destruct (route_of item); cbn; [|done].
  by rewrite app_nil_r.
Qed.

Lemma mapM_cons_ok {A B} (f : A → result B) x l k :
  mapM f (x :: l) = Ok k ↔ ∃ y k', f x = Ok y ∧ mapM f l = Ok k' ∧ k = y :: k'.
Proof.
  cbn [mapM]. destruct (f x) as [y|e]; cbn.
  - destruct (mapM f l) as [k'|e]; cbn.
    + split; [intros [= <-]; eauto|]. by intros (? & ? & [= <-] & [= <-] & ->).
    + split; [done|]. by intros (? & ? & _ & ? & _).
  - split; [done|]. by intros (? & ? & ? & _).
Qed.

Lemma mapM_Permutation {A B} (f : A → result B) (l l' : list A) :
  l ≡ₚ l' → ∀ k, mapM f l = Ok k → ∃ k', mapM f l' = Ok k' ∧ k ≡ₚ k'.
Proof.
  induction 1 as [|x l l' _ IH|x y l|l1 l2 l3 _ IH1 _ IH2]; intros k.
  - eauto.
  - intros (z & k0 & Hx & Hl & ->)%mapM_cons_ok.
    destruct (IH _ Hl) as (k0' & Hl' & Hperm).
    exists (z :: k0'). split; [|by constructor].
    apply mapM_cons_ok. eauto.
  - intros (zy & k0 & Hy & (zx & k1 & Hx & Hl & ->)%mapM_cons_ok & ->)%mapM_cons_ok.
    exists (zx :: zy :: k1). split; [|by constructor].
    apply mapM_cons_ok. eexists _, _. split_and!; [done| |done].
    apply mapM_cons_ok. eauto.
  - intros Hk. destruct (IH1 _ Hk) as (k2 & Hk2 & Hp2).
    destruct (IH2 _ Hk2) as (k3 & Hk3 & Hp3).
    exists k3. split; [done|]. by etrans.
Qed.

Lemma route_of_ok subnet gw net a :
  IPNetwork subnet = Ok net → IPAddress gw = Ok a →
  route_of (subnet, gw)
  = Ok (network net, prefixlen net, words (network net), words a).
Proof. intros Hnet Ha. unfold route_of, init_step. by rewrite Hnet, Ha. Qed.

(** C6: for a pair of strings that parse, the encoding of the entry is the
    prefix length, then the first [ceil(prefixlen / 8)] octets of the network
    address with the host bits set to zero (none for a prefix length of 0),
    then the four octets of the gateway.  The route 10.0.0.0/8 via 10.0.0.1
    is encoded as [8, 10, 10, 0, 0, 1]. *)
Theorem route_entry_encoding :
  (∀ subnet gw net a,
     IPNetwork subnet = Ok net → IPAddress gw = Ok a →
     encode [(subnet, gw)]
     = Ok (prefixlen net ::
           take (significant_octets (prefixlen net))
                (octets (clear_host_bits (ip net) (prefixlen net))) ++
           octets (value a))) ∧
  significant_octets 0 = 0 ∧
  encode [(str "10.0.0.0/8", str "10.0.0.1")] = Ok [8; 10; 10; 0; 0; 1]%N.
Proof.
  split_and!; [|done|vm_compute; reflexivity].
  intros subnet gw net a Hnet Ha.
  rewrite encode_one, (route_of_ok _ _ _ _ Hnet Ha). cbn [fmap result_fmap].
  rewrite route_step_fragment, !words_octets. cbn [app].
  apply IPNetwork_range in Hnet as [Hip Hp].
  by rewrite network_clear_host_bits.
Qed.

Lemma route_entry_encoding_witness :
  encode [(str "192.168.1.77/25", str "192.168.1.1")]
  = Ok (25%N :: take (significant_octets 25)
                     (octets (clear_host_bits 3232235853 25)) ++
        octets 3232235777).
Proof.
  exact (proj1 route_entry_encoding
           (str "192.168.1.77/25") (str "192.168.1.1")
           {| ip := 3232235853; prefixlen := 25 |} {| value := 3232235777 |}
           eq_refl eq_refl).
Defined.

(** C9: the encoder maps concatenation to concatenation.  The output for a
    sequence of entries is the concatenation, in the order of the input and
    with nothing in between, of the outputs for the single entries; an entry
    that does not parse fails the whole call.  Permuting the entries permutes
    the fragments and leaves each of them as it is. *)
Theorem encode_concatenates_fragments :
  (∀ routes,
     encode routes = concat (A:=N) <$> mapM (λ item, encode [item]) routes) ∧
  (∀ routes1 routes2,
     encode (routes1 ++ routes2)
     = out1 ← encode routes1; out2 ← encode routes2; Ok (out1 ++ out2)) ∧
  (∀ routes routes' frags,
     routes ≡ₚ routes' →
     mapM (λ item, encode [item]) routes = Ok frags →
     ∃ frags', mapM (λ item, encode [item]) routes' = Ok frags' ∧
               frags ≡ₚ frags').
Proof.
  assert (∀ routes,
            encode routes = concat (A:=N) <$> mapM (λ item, encode [item]) routes)
    as Hconcat.
  { intros routes. rewrite encode_routes.
    induction routes as [|item routes IH]; [done|].
    cbn [mapM]. rewrite encode_one.
    destruct (route_of item) as [r|e]; cbn; [|done].
    cbn in IH. destruct (mapM route_of routes) as [rs|e]; cbn in *.
    - destruct (mapM _ routes) as [frags|e]; cbn in *; [|done].
      injection IH as <-. done.
    - by destruct (mapM _ routes). }
  split_and!; [done| |].
  - intros routes1 routes2. rewrite !Hconcat.
    induction routes1 as [|item routes1 IH].
    + cbn. by destruct (mapM _ routes2).
    + cbn [app mapM]. destruct (encode [item]) as [frag|e]; cbn; [|done].
      cbn in IH. destruct (mapM _ (routes1 ++ routes2)) as [frags|e]; cbn in *.
      * destruct (mapM _ routes1) as [frags1|e]; cbn in *; [|done].
        destruct (mapM _ routes2) as [frags2|e]; cbn in *; [|done].
        injection IH as ->. by rewrite app_assoc.
      * destruct (mapM _ routes1) as [frags1|e1]; cbn in *; [|done].
        by destruct (mapM _ routes2).
  - intros routes routes' frags Hperm. by apply mapM_Permutation.
Qed.

Lemma encode_concatenates_fragments_witness :
  ∃ frags',
    mapM (λ item, encode [item])
      [(str "0.0.0.0/0", str "10.0.0.1"); (str "10.0.0.0/8", str "10.0.0.1")]
    = Ok frags' ∧
    [[8; 10; 10; 0; 0; 1]; [0; 10; 0; 0; 1]]%N ≡ₚ frags'.
Proof.
  refine (proj2 (proj2 encode_concatenates_fragments)
            [(str "10.0.0.0/8", str "10.0.0.1"); (str "0.0.0.0/0", str "10.0.0.1")]
            _ _ _ _).
  - apply perm_swap.
  - vm_compute. reflexivity.
Defined.

End routes.

(** ** Further properties of the suboption decoder *)

Section parse_more.

Import RFC3046.

Lemma mapping_lookup_None es i : mapping es !! i = None ↔ i ∉ es.*1.
Proof.
  induction es as [|[j v] es IH].
  { split; [intros _; apply not_elem_of_nil | intros _; apply lookup_empty]. }
  cbn [mapping fst snd]. rewrite fmap_cons, not_elem_of_cons. cbn [fst].
  rewrite lookup_union_None, lookup_singleton_None, IH. intuition congruence.
Qed.

Lemma mapping_cons_fresh i v es :
  i ∉ es.*1 → mapping ((i, v) :: es) = <[i := v]> (mapping es).
Proof.
  intros Hi. cbn [mapping fst snd].
  by rewrite insert_union_singleton_r by by apply mapping_lookup_None.
Qed.

Lemma mapping_cons_dup i v es :
  i ∈ es.*1 → mapping ((i, v) :: es) = mapping es.
Proof.
  intros Hi. cbn [mapping fst snd]. apply map_eq. intros j.
  destruct (decide (j = i)) as [->|Hne].
  - apply lookup_union_l'. apply not_eq_None_Some.
    rewrite mapping_lookup_None. tauto.
  - apply lookup_union_l. by apply lookup_singleton_None.
Qed.

Lemma mapping_list_to_map es : NoDup es.*1 → mapping es = list_to_map es.
Proof.
  induction es as [|[i v] es IH]; [done|].
  rewrite fmap_cons, NoDup_cons. cbn [fst]. intros [Hi Hnd].
  rewrite mapping_cons_fresh by done. cbn [list_to_map foldr fst snd].
  by rewrite IH.
Qed.

Lemma mapping_lookup_elem es i v : mapping es !! i = Some v → (i, v) ∈ es.
Proof.
  induction es as [|[j w] es IH].
  { cbn [mapping]. by rewrite lookup_empty. }
  cbn [mapping fst snd]. rewrite lookup_union_Some_raw, lookup_singleton_Some.
  intros [H|[_ [-> ->]]]; [right; auto | left].
Qed.

Lemma mapping_bytes_le es : mapping_bytes (mapping es) ≤ length (wire es).
Proof.
  induction es as [|[i v] es IH]; [done|].
  rewrite wire_cons. cbn [length fst snd]. rewrite length_app.
  destruct (decide (i ∈ es.*1)) as [Hi|Hi].
  - rewrite mapping_cons_dup by done. lia.
  - rewrite mapping_cons_fresh by done.
    rewrite mapping_bytes_insert by by apply mapping_lookup_None. lia.
Qed.

Lemma mapping_bytes_eq_NoDup es :
  mapping_bytes (mapping es) = length (wire es) → NoDup es.*1.
Proof.
  induction es as [|[i v] es IH]; [constructor|].
  rewrite wire_cons. cbn [length fst snd]. rewrite length_app, fmap_cons.
  cbn [fst]. pose proof (mapping_bytes_le es) as Hle.
  destruct (decide (i ∈ es.*1)) as [Hi|Hi].
  - rewrite mapping_cons_dup by done. lia.
  - rewrite mapping_cons_fresh by done.
    rewrite mapping_bytes_insert by by apply mapping_lookup_None.
    intros Heq. constructor; [done|]. apply IH. lia.
Qed.

Lemma parse_wire_app es d2 :
  es ≠ [] → d2 ≠ [] →
  _parseSuboption (wire es ++ d2)
  = m2 ← _parseSuboption d2; Ok (m2 ∪ mapping es).
Proof.
  intros Hes Hd2. induction es as [|[i v] es IH]; [done|]. clear Hes.
  rewrite wire_cons. cbn [fst snd]. rewrite <- !app_comm_cons, <- app_assoc.
  rewrite parse_cons, Nat2N.id, length_app.
  assert (0 < length (wire es ++ d2)).
  { rewrite length_app. destruct d2; [done|]. cbn [length]. lia. }
  rewrite decide_False, decide_True by lia.
  rewrite drop_app_length, take_app_length.
  destruct es as [|e es].
  - cbn [wire fmap list_fmap concat app mapping].
    destruct (_parseSuboption d2) as [m2|]; cbn; [|done].
    by rewrite (left_id_L ∅ (∪)).
  - rewrite IH by done. destruct (_parseSuboption d2) as [m2|]; cbn; [|done].
    cbn [mapping]. by rewrite !(assoc_L (∪)).
Qed.

(** X1: on a buffer that holds suboptions with pairwise distinct ids the
    decoder loses nothing: the entries of the mapping it returns are the
    suboptions of the buffer, each found under its id. *)
Theorem parse_wire_distinct_round_trip (es : list tlv) :
  es ≠ [] → NoDup es.*1 →
  ∃ m, _parseSuboption (wire es) = Ok m ∧
       map_to_list m ≡ₚ es ∧
       size m = length es ∧
       (∀ i v, m !! i = Some v ↔ (i, v) ∈ es).
Proof.
  intros Hes Hnd. destruct es as [|e es]; [done|].
  rewrite parse_wire, (mapping_list_to_map _ Hnd).
  eexists. split_and!; [done| | |].
  - by apply map_to_list_to_map.
  - by apply map_size_list_to_map.
  - intros i v. symmetry. by apply elem_of_list_to_map.
Qed.

Lemma parse_wire_distinct_round_trip_witness :
  ∃ m, _parseSuboption (wire [(1, [0; 4; 1; 2; 3; 4]); (2, [0; 1; 9]); (9, [])]%N)
       = Ok m ∧
       map_to_list m ≡ₚ [(1, [0; 4; 1; 2; 3; 4]); (2, [0; 1; 9]); (9, [])]%N ∧
       size m = 3 ∧
       (∀ i v, m !! i = Some v ↔
               (i, v) ∈ [(1, [0; 4; 1; 2; 3; 4]); (2, [0; 1; 9]); (9, [])]%N).
Proof.
  apply (parse_wire_distinct_round_trip
           [(1, [0; 4; 1; 2; 3; 4]); (2, [0; 1; 9]); (9, [])]%N).
  - discriminate.
  - apply (bool_decide_unpack _). by vm_compute.
Defined.

(** X2: the mapping returned never accounts for more bytes than the buffer
    has, and it is never empty; it accounts for all of them exactly when no
    id occurs twice in the buffer, so that a repeated id always loses the
    bytes of the earlier suboption. *)
Theorem parse_mapping_bytes (data : list N) (m : gmap N (list N)) :
  _parseSuboption data = Ok m →
  mapping_bytes m ≤ length data ∧
  0 < size m ∧
  (∀ es, data = wire es → (mapping_bytes m = length data ↔ NoDup es.*1)).
Proof.
  intros Hp. destruct (parse_wire_ok _ (parse_ok_inv _ _ Hp)) as (es & -> & Hm).
  assert (m = mapping es) as -> by congruence. split_and!.
  - apply mapping_bytes_le.
  - destruct es as [|[i v] es]; [by simp _parseSuboption in Hp|].
    apply Nat.neq_0_lt_0. apply (map_size_ne_0_lookup_2 _ i).
    apply not_eq_None_Some. rewrite mapping_lookup_None, fmap_cons.
    cbn [fst]. set_solver.
  - intros es' ->%wire_inj. split.
    + apply mapping_bytes_eq_NoDup.
    + apply mapping_bytes_distinct.
Qed.

Lemma parse_mapping_bytes_witness :
  ∃ m, _parseSuboption [1; 1; 7; 1; 2; 8; 9]%N = Ok m ∧
       mapping_bytes m ≤ 7 ∧ 0 < size m ∧
       (∀ es, [1; 1; 7; 1; 2; 8; 9]%N = wire es →
              (mapping_bytes m = 7 ↔ NoDup es.*1)).
Proof.
  eexists. split; [vm_compute; reflexivity|].
  apply (parse_mapping_bytes [1; 1; 7; 1; 2; 8; 9]%N). vm_compute. reflexivity.
Defined.

(** X3: every value of the returned mapping is a contiguous part of the
    buffer that stands right after its own header, the id and the length
    byte; on a buffer of bytes it is therefore at most 255 bytes long. *)
Theorem parse_value_in_buffer (data : list N) (m : gmap N (list N)) i v :
  _parseSuboption data = Ok m → m !! i = Some v →
  (∃ pre post, data = pre ++ i :: N.of_nat (length v) :: v ++ post) ∧
  (Forall is_byte data → length v < 256).
Proof.
  intros Hp Hv. destruct (parse_wire_ok _ (parse_ok_inv _ _ Hp)) as (es & -> & Hm).
  assert (m = mapping es) as -> by congruence.
  apply mapping_lookup_elem, list_elem_of_split in Hv as (es1 & es2 & ->).
  assert (wire (es1 ++ (i, v) :: es2)
          = wire es1 ++ i :: N.of_nat (length v) :: v ++ wire es2) as Hw.
  { by rewrite wire_app, wire_cons. }
  split; [eauto|]. rewrite Hw, Forall_app, !Forall_cons. unfold is_byte.
  intros (_ & _ & Hlen & _). lia.
Qed.

Lemma parse_value_in_buffer_witness :
  (∃ pre post, [3; 0; 1; 2; 7; 8]%N
               = pre ++ 1%N :: N.of_nat (length [7; 8]%N) :: [7; 8]%N ++ post) ∧
  (Forall is_byte [3; 0; 1; 2; 7; 8]%N → length [7; 8]%N < 256).
Proof.
  apply (parse_value_in_buffer [3; 0; 1; 2; 7; 8]%N
           (mapping [(3, []); (1, [7; 8])]%N) 1%N [7; 8]%N).
  - apply (parse_wire (3, [])%N [(1, [7; 8])]%N).
  - vm_compute. reflexivity.
Defined.

(** X4: decoding composes with concatenation.  When a buffer that decodes
    to [m1] is followed by further bytes, the result is the mapping of these
    bytes laid over [m1]; an error in the bytes that follow is the error of
    the whole, and nothing of [m1] is returned. *)
Theorem parse_app (d1 d2 : list N) (m1 : gmap N (list N)) :
  _parseSuboption d1 = Ok m1 → d2 ≠ [] →
  _parseSuboption (d1 ++ d2) = m2 ← _parseSuboption d2; Ok (m2 ∪ m1).
Proof.
  intros Hp Hd2.
  destruct (parse_wire_ok _ (parse_ok_inv _ _ Hp)) as (es & -> & Hm).
  assert (m1 = mapping es) as -> by congruence.
  apply parse_wire_app; [|done]. intros ->. by simp _parseSuboption in Hp.
Qed.

Lemma parse_app_witness :
  _parseSuboption ([1; 1; 7]%N ++ [2; 5; 8]%N)
  = m2 ← _parseSuboption [2; 5; 8]%N; Ok (m2 ∪ {[ 1%N := [7%N] ]}).
Proof.
  apply (parse_app [1; 1; 7]%N [2; 5; 8]%N {[ 1%N := [7%N] ]}).
  - rewrite parse_cons. reflexivity.
  - discriminate.
Defined.



(** C1, as the code has it: a well-formed buffer, a concatenation of one or
    more suboptions whose length bytes agree with their values, is decoded
    without an exception, and the mapping returned holds, for each id, the
    value of the last suboption with that id.  The bytes this mapping accounts
    for, header and value of each entry, add up to the length of the buffer
    when the ids of the suboptions are pairwise distinct; when an id occurs
    twice they are fewer. *)
Theorem parse_well_formed_mapping_bytes (data : list N) :
  well_formed data →
  ∃ es m,
    data = wire es ∧ (∀ es', data = wire es' → es' = es) ∧
    _parseSuboption data = Ok m ∧
    (∀ i, m !! i = last_value i es) ∧
    (NoDup es.*1 → mapping_bytes m = length data) ∧
    (¬ NoDup es.*1 → mapping_bytes m < length data).
Proof.
  intros Hwf. destruct (parse_wire_ok _ Hwf) as (es & -> & Hp).
  exists es, (mapping es). split_and!; [done| |done| | |].
  - intros es' Hes'. by apply wire_inj.
  - intros i. apply mapping_lookup.
  - apply mapping_bytes_distinct.
  - intros Hdup. pose proof (mapping_bytes_le es) as Hle.
    destruct (decide (mapping_bytes (mapping es) = length (wire es))) as [Heq|];
      [|lia].
    by apply mapping_bytes_eq_NoDup in Heq.
Qed.

Lemma parse_well_formed_mapping_bytes_witness :
  well_formed [1; 2; 7; 8; 2; 0; 3; 1; 9]%N ∧
  ∃ es m,
    [1; 2; 7; 8; 2; 0; 3; 1; 9]%N = wire es ∧
    (∀ es', [1; 2; 7; 8; 2; 0; 3; 1; 9]%N = wire es' → es' = es) ∧
    _parseSuboption [1; 2; 7; 8; 2; 0; 3; 1; 9]%N = Ok m ∧
    (∀ i, m !! i = last_value i es) ∧
    (NoDup es.*1 → mapping_bytes m = length [1; 2; 7; 8; 2; 0; 3; 1; 9]%N) ∧
    (¬ NoDup es.*1 → mapping_bytes m < length [1; 2; 7; 8; 2; 0; 3; 1; 9]%N).
Proof.
  assert (well_formed [1; 2; 7; 8; 2; 0; 3; 1; 9]%N) as Hwf.
  { exists [(1, [7; 8]); (2, []); (3, [9])]%N. split; [discriminate | reflexivity]. }
  split; [exact Hwf | exact (parse_well_formed_mapping_bytes _ Hwf)].
Defined.

(** C1, as the claim has it, fails: in the well-formed buffer
    [1, 2, 7, 8, 2, 0, 1, 1, 9] the id 1 occurs twice, and the mapping
    returned accounts for 5 of the 9 bytes. *)
Lemma parse_repeated_id_loses_bytes :
  (∃ m, well_formed [1; 2; 7; 8; 2; 0; 1; 1; 9]%N ∧
        _parseSuboption [1; 2; 7; 8; 2; 0; 1; 1; 9]%N = Ok m ∧
        mapping_bytes m = 5 ∧ length [1; 2; 7; 8; 2; 0; 1; 1; 9]%N = 9) ∧
  ¬ (∀ data m, well_formed data → _parseSuboption data = Ok m →
               mapping_bytes m = length data).
Proof.
  assert (well_formed [1; 2; 7; 8; 2; 0; 1; 1; 9]%N) as Hwf.
  { exists [(1, [7; 8]); (2, []); (1, [9])]%N. split; [discriminate | reflexivity]. }
  assert (_parseSuboption [1; 2; 7; 8; 2; 0; 1; 1; 9]%N
          = Ok (mapping [(1, [7; 8]); (2, []); (1, [9])]%N)) as Hp.
  { apply (parse_wire (1, [7; 8])%N [(2, []); (1, [9])]%N). }
  assert (mapping_bytes (mapping [(1, [7; 8]); (2, []); (1, [9])]%N) = 5) as Hb.
  { vm_compute. reflexivity. }
  split; [by eauto|].
  intros Hall. specialize (Hall _ _ Hwf Hp). rewrite Hb in Hall. discriminate Hall.
Qed.

End parse_more.

(** ** Further properties of the attribute decoder and the accessors *)

Section agent_info_more.

Import RFC3046.

Lemma decode_wire_app es d :
  length d < 2 → _decodeSuboptionAttr (wire es ++ d) = es.
Proof.
  intros Hd. induction es as [|[i v] es IH]; [by apply decode_short|].
  rewrite wire_cons. cbn [fst snd]. rewrite <- !app_comm_cons, <- app_assoc.
  rewrite decode_cons, Nat2N.id, take_app_length, drop_app_length, length_app.
  case_decide as Hlen; [by rewrite IH|].
  destruct es as [|e es]; [done|].
  rewrite wire_cons in Hlen. cbn [app length] in Hlen. lia.
Qed.

(** X6: the attribute decoder inverts the wire form of attributes: a value
    made of attributes, each with a length byte that agrees with its value,
    decodes to these attributes in their order, repeated types included. *)
Theorem decode_wire_round_trip (es : list tlv) : _decodeSuboptionAttr (wire es) = es.
Proof.
  rewrite <- (app_nil_r (wire es)). apply decode_wire_app. cbn. lia.
Qed.

(** X7: a single byte left over after the last entry is passed over in
    silence by the attribute decoder and rejected by the suboption decoder,
    which reports one byte where it expects two. *)
Theorem trailing_byte_lenient_and_strict (es : list tlv) (b : N) :
  es ≠ [] →
  _decodeSuboptionAttr (wire es ++ [b]) = es ∧
  _parseSuboption (wire es ++ [b]) = Raise (ValueError_short 1).
Proof.
  intros Hes. split.
  - apply decode_wire_app. cbn. lia.
  - by rewrite parse_wire_app.
Qed.

Lemma trailing_byte_lenient_and_strict_witness :
  _decodeSuboptionAttr (wire [(0, [1; 2; 3; 4])]%N ++ [7%N]) = [(0, [1; 2; 3; 4])]%N ∧
  _parseSuboption (wire [(0, [1; 2; 3; 4])]%N ++ [7%N]) = Raise (ValueError_short 1).
Proof.
  apply (trailing_byte_lenient_and_strict [(0, [1; 2; 3; 4])]%N 7%N). discriminate.
Defined.

(** X8: the attributes returned account for every byte of the value but, at
    most, one: header and value of the attributes add up to the length of the
    input or to one less, and there are at most half as many attributes as
    bytes. *)
Theorem decode_accounts_for_input (v : list N) :
  sum_list (consumed <$> _decodeSuboptionAttr v) ≤ length v ∧
  length v ≤ sum_list (consumed <$> _decodeSuboptionAttr v) + 1 ∧
  2 * length (_decodeSuboptionAttr v) ≤ length v.
Proof.
  remember (length v) as n eqn:Hn. revert v Hn.
  induction n as [n IH] using lt_wf_ind. intros v ->.
  destruct v as [|ty [|l tl]]; [simp _decodeSuboptionAttr; cbn; lia..|].
  rewrite decode_cons, fmap_cons. cbn [sum_list sum_list_with length].
  change (consumed (ty, take (N.to_nat l) tl))
    with (2 + length (take (N.to_nat l) tl)).
  rewrite length_take.
  case_decide as Hlen.
  - destruct (IH (length (drop (N.to_nat l) tl))
                ltac:(rewrite length_drop; cbn [length]; lia) _ eq_refl)
      as (H1 & H2 & H3).
    rewrite length_drop in H1, H2, H3. unfold id in *. lia.
  - cbn. lia.
Qed.

Lemma attributes_of_mapping i es :
  attributes_of i (mapping es)
  = match last_value i es with
    | Some v => _decodeSuboptionAttr v
    | None => []
    end.
Proof. unfold attributes_of. by rewrite mapping_lookup. Qed.

(** X9: a suboption that is missing gives no value.  For an object built by
    the constructor, [AgentCircuitId] is [None] when the mapping has no entry
    for id 1 or an entry of fewer than two bytes, and [AgentRemoteId] is
    [None] under the same conditions on id 2. *)
Theorem accessors_missing_suboption (data : list N) (self : t) :
  __init__ data = Ok self →
  (suboptions self !! 1%N = None → AgentCircuitId self = Ok None) ∧
  (suboptions self !! 2%N = None → AgentRemoteId self = Ok None) ∧
  (∀ v, suboptions self !! 1%N = Some v → length v < 2 →
        AgentCircuitId self = Ok None) ∧
  (∀ v, suboptions self !! 2%N = Some v → length v < 2 →
        AgentRemoteId self = Ok None).
Proof.
  intros (m & Hp & ->)%init_ok. cbn [suboptions].
  unfold AgentCircuitId, AgentRemoteId, attributes_of.
  cbn [agent_circuit_id agent_remote_id]. split_and!.
  - by intros ->.
  - by intros ->.
  - intros v -> Hlen. by rewrite decode_short.
  - intros v -> Hlen. by rewrite decode_short.
Qed.

Lemma accessors_missing_suboption_witness :
  ∃ self, __init__ [2; 1; 7; 5; 0]%N = Ok self ∧
          AgentCircuitId self = Ok None ∧ AgentRemoteId self = Ok None.
Proof.
  eexists. split; [vm_compute; reflexivity|]. split.
  - eapply (proj1 (accessors_missing_suboption [2; 1; 7; 5; 0]%N _ eq_refl)).
    vm_compute. reflexivity.
  - eapply (proj2 (proj2 (proj2
              (accessors_missing_suboption [2; 1; 7; 5; 0]%N _ eq_refl)))).
    + vm_compute. reflexivity.
    + cbn. lia.
Defined.

Lemma init_wire es :
  es ≠ [] →
  __init__ (wire es)
  = Ok {| agent_circuit_id := attributes_of 1 (mapping es);
          agent_remote_id := attributes_of 2 (mapping es);
          raw := wire es; suboptions := mapping es |}.
Proof.
  intros Hes. apply init_ok. exists (mapping es). split; [|done].
  destruct es; [done|]. apply parse_wire.
Qed.

(** X10: the Circuit ID from the wire to the triple.  In a buffer of
    suboptions, let the last one with id 1 start with an attribute of type 0
    and length 4 that holds a VLAN number, high byte first, a module and a
    port.  Then [AgentCircuitId] of the object built from the buffer is this
    VLAN number, module and port; what follows the attribute in the suboption
    and any earlier suboption with id 1 are without effect. *)
Theorem circuit_id_from_wire (es : list tlv) (vlan module port : N) (more : list N) :
  es ≠ [] →
  last_value 1 es
  = Some ([0; 4; vlan / 256; vlan mod 256; module; port]%N ++ more) →
  __init__ (wire es) ≫= AgentCircuitId = Ok (Some (vlan, module, port)).
Proof.
  intros Hes Hlast. rewrite init_wire by done. cbn [mbind result_bind].
  unfold AgentCircuitId. cbn [agent_circuit_id].
  rewrite attributes_of_mapping, Hlast. cbn [app]. rewrite decode_cons.
  change (N.to_nat 4) with 4. cbn -[N.shiftl N.div N.modulo]. do 4 f_equal.
  rewrite N.shiftl_mul_pow2. change (2 ^ 8)%N with 256%N.
  pose proof (N.div_mod vlan 256 ltac:(done)). lia.
Qed.

Lemma circuit_id_from_wire_witness :
  __init__ (wire [(1, [0; 4; 9; 9; 9; 9]); (2, [0; 0]);
                  (1, [0; 4; 1000 / 256; 1000 mod 256; 3; 24; 5; 0])]%N)
    ≫= AgentCircuitId
  = Ok (Some (1000, 3, 24)%N).
Proof.
  apply (circuit_id_from_wire
           [(1, [0; 4; 9; 9; 9; 9]); (2, [0; 0]);
            (1, [0; 4; 1000 / 256; 1000 mod 256; 3; 24; 5; 0])]%N
           1000 3 24 [5; 0]%N).
  - discriminate.
  - vm_compute. reflexivity.
Defined.

(** X11: the Remote ID from the wire.  When the last suboption with id 2
    starts with an attribute of type 0 and length 6, [AgentRemoteId] of the
    object built from the buffer is the six bytes of this attribute, whatever
    follows it in the suboption. *)
Theorem remote_id_from_wire (es : list tlv) (mac more : list N) :
  es ≠ [] → length mac = 6 →
  last_value 2 es = Some ([0; 6]%N ++ mac ++ more) →
  __init__ (wire es) ≫= AgentRemoteId = Ok (Some (ints mac)).
Proof.
  intros Hes Hmac Hlast. rewrite init_wire by done. cbn [mbind result_bind].
  unfold AgentRemoteId. cbn [agent_remote_id].
  rewrite attributes_of_mapping, Hlast. cbn [app]. rewrite decode_cons.
  change (N.to_nat 6) with 6. rewrite <- Hmac, take_app_length.
  cbn [N.eqb andb]. by rewrite Hmac.
Qed.

Lemma remote_id_from_wire_witness :
  __init__ (wire [(1, [0; 0]); (2, [0; 6; 1; 2; 3; 4; 5; 6; 1; 0])]%N)
    ≫= AgentRemoteId
  = Ok (Some (ints [1; 2; 3; 4; 5; 6]%N)).
Proof.
  apply (remote_id_from_wire
           [(1, [0; 0]); (2, [0; 6; 1; 2; 3; 4; 5; 6; 1; 0])]%N
           [1; 2; 3; 4; 5; 6]%N [1; 0]%N).
  - discriminate.
  - reflexivity.
  - vm_compute. reflexivity.
Defined.

Lemma pairs_length {A} (l : list A) : length (pairs l) = length l / 2.
Proof.
  induction l as [|a|a b l IH] using pairs_ind; [done|done|].
  cbn [pairs length]. rewrite IH.
  replace (S (S (length l))) with (1 * 2 + length l) by lia.
  rewrite Nat.div_add_l by lia. lia.
Qed.

Lemma hex_value_bound b : is_hexdigit b = true → (hex_value b < 16)%N.
Proof.
  unfold is_hexdigit, hex_value.
  rewrite !orb_true_iff, !andb_true_iff, !N.leb_le. intros H.
  repeat match goal with
         | |- context [(?a <=? ?b)%N] => destruct (N.leb_spec a b)
         end; lia.
Qed.

Lemma pairs_Forall {A} (P : A → Prop) (l : list A) :
  Forall P l → Forall (λ p, P p.1 ∧ P p.2) (pairs l).
Proof.
  induction l as [|a|a b l IH] using pairs_ind; [constructor..|].
  rewrite !Forall_cons. intros (Ha & Hb & Hl). cbn [pairs].
  constructor; [done|auto].
Qed.

Lemma filter_dash_length (v : list N) :
  length (filter (λ i, i = 45%N) v) + length (filter (λ i, i ≠ 45%N) v) = length v.
Proof.
  induction v as [|b v IH]; [done|].
  rewrite !filter_cons. destruct (decide (b = 45%N)) as [->|Hb].
  - rewrite decide_False by (intros H; by apply H). cbn [length]. lia.
  - rewrite decide_True by done. cbn [length]. lia.
Qed.

(** X12: the shape of a D-Link Remote ID.  For a first attribute of type 1
    with 17 bytes of hexadecimal digits and dashes the value returned has one
    element for every two digits, the digit count halved and rounded down,
    and every element is a byte; with five dashes that makes six bytes. *)
Theorem remote_id_dash_hex_shape (self : t) (v : list N) rest :
  agent_remote_id self = (1%N, v) :: rest → length v = 17 → dash_hex_text v →
  ∃ out, AgentRemoteId self = Ok (Some out) ∧
         length out = length (filter (λ i, i ≠ 45%N) v) / 2 ∧
         Forall (λ z, (0 ≤ z < 256)%Z) out ∧
         (length (filter (λ i, i = 45%N) v) = 5 → length out = 6).
Proof.
  intros Hattr Hlen Htext. exists (ints (dash_hex_decode v)).
  assert (length (ints (dash_hex_decode v))
          = length (filter (λ i, i ≠ 45%N) v) / 2) as Hout.
  { unfold ints, dash_hex_decode. by rewrite !length_fmap, pairs_length. }
  split_and!.
  - by apply (remote_id_dash_hex self v rest).
  - done.
  - unfold ints, dash_hex_decode. rewrite <- list_fmap_compose.
    apply Forall_fmap. eapply Forall_impl.
    + apply pairs_Forall, dash_hex_text_digits, Htext.
    + intros [a b] [Ha%hex_value_bound Hb%hex_value_bound]. cbn in *. lia.
  - intros Hdash. rewrite Hout.
    pose proof (filter_dash_length v) as Hsplit.
    assert (length (filter (λ i, i ≠ 45%N) v) = 12) as -> by lia.
    done.
Qed.

Lemma remote_id_dash_hex_shape_witness :
  ∃ out,
    AgentRemoteId
      {| agent_circuit_id := [];
         agent_remote_id :=
           [(1, [48; 49; 45; 50; 51; 45; 52; 53; 45; 54; 55; 45; 56; 57; 45; 97; 70])]%N;
         raw := [2; 0]%N; suboptions := ∅ |}
    = Ok (Some out) ∧
    length out
    = length (filter (λ i, i ≠ 45%N)
                [48; 49; 45; 50; 51; 45; 52; 53; 45; 54; 55; 45; 56; 57; 45; 97; 70]%N)
      / 2 ∧
    Forall (λ z, (0 ≤ z < 256)%Z) out ∧
    (length (filter (λ i, i = 45%N)
               [48; 49; 45; 50; 51; 45; 52; 53; 45; 54; 55; 45; 56; 57; 45; 97; 70]%N)
     = 5 → length out = 6).
Proof.
  match goal with |- ∃ out, AgentRemoteId ?self = _ ∧ _ =>
    refine (remote_id_dash_hex_shape self _ [] eq_refl eq_refl _)
  end.
  unfold dash_hex_text.
  repeat (constructor; [first [by left | by right]|]). constructor.
Defined.

End agent_info_more.

(** ** Further properties of the route encoder *)

Section routes_more.

Import netaddr RFC3442.

Lemma route_of_inv item r :
  route_of item = Ok r →
  ∃ net a, IPNetwork item.1 = Ok net ∧ IPAddress item.2 = Ok a ∧
           r = (network net, prefixlen net, words (network net), words a).
Proof.
  destruct item as [subnet gw]. unfold route_of, init_step. cbn.
  destruct (IPNetwork subnet) as [net|]; cbn; [|done].
  destruct (IPAddress gw) as [a|]; cbn; [|done]. intros [= <-]. eauto.
Qed.

Lemma IPAddress_range addr a : IPAddress addr = Ok a → (value a < 2 ^ 32)%N.
Proof.
  unfold IPAddress. destruct (str_to_int addr) as [v|] eqn:Hv; [|done].
  intros [= <-]. by eapply str_to_int_bound.
Qed.

Lemma significant_octets_le p : (p ≤ 32)%N → significant_octets p ≤ 4.
Proof.
  intros Hp. unfold significant_octets.
  pose proof (N.div_mod (p + 7) 8 ltac:(done)) as Hdiv.
  pose proof (N.mod_lt (p + 7) 8 ltac:(done)) as Hmod.
  remember ((p + 7) / 8)%N as q eqn:Hq. remember ((p + 7) mod 8)%N as r eqn:Hr.
  clear Hq Hr. lia.
Qed.

Lemma fragment_length nw p w g :
  length (route_step [] (nw, p, w, g)) = 5 + (significant_octets p `min` 4).
Proof.
  rewrite route_step_fragment. destruct w as [[[w0 w1] w2] w3].
  destruct g as [[[g0 g1] g2] g3]. cbn [app length word_list].
  rewrite length_app, length_take. cbn [length]. lia.
Qed.

Lemma mapM_length {A B} (f : A → result B) l k :
  mapM f l = Ok k → length k = length l.
Proof.
  revert k. induction l as [|x l IH]; intros k.
  - by intros [= <-].
  - intros (y & k' & _ & Hk' & ->)%mapM_cons_ok. cbn. by rewrite (IH _ Hk').
Qed.

Lemma mapM_Forall {A B} (f : A → result B) l k :
  mapM f l = Ok k → Forall (λ y, ∃ x, f x = Ok y) k.
Proof.
  revert k. induction l as [|x l IH]; intros k.
  - intros [= <-]. constructor.
  - intros (y & k' & Hy & Hk' & ->)%mapM_cons_ok. constructor; eauto.
Qed.

Lemma init_routes routes self :
  __init__ routes = Ok self → mapM route_of routes = Ok (_routes self).
Proof.
  unfold __init__. rewrite init_foldl.
  destruct (mapM route_of routes) as [rs|]; cbn; [|done]. by intros [= <-].
Qed.

Lemma clear_host_bits_lt v p : (v < 2 ^ 32)%N → (clear_host_bits v p < 2 ^ 32)%N.
Proof.
  intros Hv. unfold clear_host_bits.
  rewrite N.shiftl_mul_pow2, N.shiftr_div_pow2.
  apply N.le_lt_trans with v; [|done].
  rewrite N.mul_comm. apply N.Div0.mul_div_le.
Qed.

Lemma clear_host_bits_idem v p :
  clear_host_bits (clear_host_bits v p) p = clear_host_bits v p.
Proof.
  unfold clear_host_bits. rewrite N.shiftr_shiftl_l by done.
  by rewrite N.sub_diag, N.shiftl_0_r.
Qed.

Lemma route_of_ipv4 item r : route_of item = Ok r → ipv4_route r.
Proof.
  intros (net & a & Hnet & Ha & ->)%route_of_inv.
  apply IPNetwork_range in Hnet as [Hip Hp]. apply IPAddress_range in Ha.
  unfold ipv4_route. rewrite (network_clear_host_bits net Hip Hp).
  split_and!; [done|by apply clear_host_bits_lt|by rewrite clear_host_bits_idem|done|].
  by exists a.
Qed.

(** The constructor, on the strings the model of [netaddr] accepts, stores
    IPv4 routes. *)
Lemma init_ipv4 routes self :
  __init__ routes = Ok self → Forall ipv4_route (_routes self).
Proof.
  intros Hrs%init_routes%mapM_Forall. eapply Forall_impl; [exact Hrs|].
  intros r [item Hr]. by eapply route_of_ipv4.
Qed.

(** X13: the size of the output for IPv4 routes.  When every route of the
    object is an IPv4 route, with four octets for the network, four for the
    gateway and a prefix length of at most 32, a route takes five elements
    and one more for every eight bits of prefix length begun, so the output
    for [n] routes has between [5 n] and [9 n] elements. *)
Theorem routes_length_ipv4 (self : t) :
  Forall ipv4_route (_routes self) →
  length (ListClasslessRoutes self)
  = sum_list ((λ r : route, 5 + significant_octets r.1.1.2) <$> _routes self) ∧
  5 * length (_routes self) ≤ length (ListClasslessRoutes self)
  ≤ 9 * length (_routes self).
Proof.
  unfold ListClasslessRoutes. rewrite routes_foldl. cbn [app].
  induction 1 as [|[[[nw p] w] g] rs (Hp%significant_octets_le & _) _ IH];
    [cbn; lia|].
  rewrite !fmap_cons. cbn [concat length sum_list sum_list_with fst snd].
  rewrite length_app, fragment_length. unfold id in *. lia.
Qed.

Lemma routes_length_ipv4_witness :
  ∃ self,
    __init__ [(str "0.0.0.0/0", str "10.0.0.1");
              (str "192.168.1.77/25", str "192.168.1.1")] = Ok self ∧
    length (ListClasslessRoutes self)
    = sum_list ((λ r : route, 5 + significant_octets r.1.1.2) <$> _routes self) ∧
    5 * length (_routes self) ≤ length (ListClasslessRoutes self)
    ≤ 9 * length (_routes self).
Proof.
  eexists. split; [vm_compute; reflexivity|].
  apply routes_length_ipv4.
  eapply (init_ipv4 [(str "0.0.0.0/0", str "10.0.0.1");
                     (str "192.168.1.77/25", str "192.168.1.1")]).
  vm_compute. reflexivity.
Defined.

(** X14: an entry that does not parse fails the whole call, and with the
    error of the first such entry: of its subnet when that is refused, else
    of its gateway.  The entries after it play no part, and nothing of the
    entries before it is returned. *)
Theorem encode_first_error (good rest : list (list ascii * list ascii))
    (subnet gw : list ascii) (out : list N) (e : exception) :
  encode good = Ok out →
  (IPNetwork subnet = Raise e ∨
   (returns (IPNetwork subnet) ∧ IPAddress gw = Raise e)) →
  encode (good ++ (subnet, gw) :: rest) = Raise e.
Proof.
  rewrite !encode_routes. intros Hgood Hbad.
  assert (route_of (subnet, gw) = Raise e) as Hr.
  { unfold route_of, init_step. cbn.
    destruct Hbad as [->|[[net ->] ->]]; done. }
  destruct (mapM route_of good) as [rs|] eqn:Hrs; [clear Hgood|done].
  assert (mapM route_of (good ++ (subnet, gw) :: rest) = Raise e) as ->; [|done].
  revert rs Hrs. induction good as [|item good IH]; intros rs Hrs.
  - cbn [app mapM]. by rewrite Hr.
  - apply mapM_cons_ok in Hrs as (r & rs' & Hitem & Hrs' & ->).
    cbn [app mapM]. rewrite Hitem. cbn. by rewrite (IH _ Hrs').
Qed.

Lemma encode_first_error_witness :
  encode ([(str "10.0.0.0/8", str "10.0.0.1")] ++
          (str "not-a-subnet", str "10.0.0.1") :: [(str "bad", str "worse")])
  = Raise (AddrFormatError (str "not-a-subnet")) ∧
  encode ([] ++ (str "10.0.0.0/8", str "10.0.0.256") :: [])
  = Raise (AddrFormatError (str "10.0.0.256")).
Proof.
  split.
  - apply (encode_first_error [(str "10.0.0.0/8", str "10.0.0.1")] _ _ _
             [8; 10; 10; 0; 0; 1]%N).
    + vm_compute. reflexivity.
    + left. vm_compute. reflexivity.
  - apply (encode_first_error [] _ _ _ []).
    + vm_compute. reflexivity.
    + right. split; [eexists|]; vm_compute; reflexivity.
Defined.

Lemma octets_bytes v : Forall is_byte (octets v).
Proof.
  unfold octets, is_byte. repeat constructor;
    change 255%N with (N.ones 8); rewrite N.land_ones;
    by apply N.mod_lt.
Qed.

(** X15: for IPv4 routes the output is an array of bytes.  When every route
    of the object is an IPv4 route, every element of the output, the prefix
    lengths included, is below 256. *)
Theorem routes_bytes_ipv4 (self : t) :
  Forall ipv4_route (_routes self) → Forall is_byte (ListClasslessRoutes self).
Proof.
  unfold ListClasslessRoutes. rewrite routes_foldl. cbn [app].
  induction 1 as [|[[[nw p] w] g] rs (Hp & _ & _ & -> & gw & _ & ->) _ IH];
    [constructor|].
  rewrite fmap_cons. cbn [concat]. apply Forall_app. split; [|done].
  rewrite route_step_fragment, !words_octets. cbn [app].
  constructor; [unfold is_byte; lia|]. apply Forall_app. split.
  - apply Forall_take, octets_bytes.
  - apply octets_bytes.
Qed.

Lemma routes_bytes_ipv4_witness :
  ∃ self,
    __init__ [(str "192.168.1.77/25", str "192.168.1.1")] = Ok self ∧
    Forall is_byte (ListClasslessRoutes self).
Proof.
  eexists. split; [vm_compute; reflexivity|].
  apply routes_bytes_ipv4.
  eapply (init_ipv4 [(str "192.168.1.77/25", str "192.168.1.1")]).
  vm_compute. reflexivity.
Defined.

End routes_more.

(** ** The encoding of routes can be read back *)

Section routes_unique.

Import netaddr RFC3442.

Lemma testbit_above n k : (n < 2 ^ 32)%N → (32 ≤ k)%N → N.testbit n k = false.
Proof.
  intros Hn Hk. destruct (decide (n = 0%N)) as [->|]; [apply N.bits_0|].
  apply N.bits_above_log2.
  apply N.lt_le_trans with 32%N; [apply N.log2_lt_pow2; lia | done].
Qed.

Lemma octet_testbit n s r :
  (r < 8)%N → N.testbit (N.land (N.shiftr n s) 255) r = N.testbit n (r + s).
Proof.
  intros Hr. rewrite N.land_spec, N.shiftr_spec'.
  change 255%N with (N.ones 8). rewrite N.ones_spec_low by done.
  apply andb_true_r.
Qed.

Lemma octets_shifts v :
  octets v = [N.land (N.shiftr v 24) 255; N.land (N.shiftr v 16) 255;
              N.land (N.shiftr v 8) 255; N.land (N.shiftr v 0) 255].
Proof. unfold octets. by rewrite N.shiftr_0_r. Qed.

Lemma octets_inj n1 n2 :
  (n1 < 2 ^ 32)%N → (n2 < 2 ^ 32)%N → octets n1 = octets n2 → n1 = n2.
Proof.
  intros Hn1 Hn2. rewrite !octets_shifts.
  intros [= H24 H16 H8 H0]. apply N.bits_inj. intros k.
  assert (∀ s, N.land (N.shiftr n1 s) 255 = N.land (N.shiftr n2 s) 255 →
               (s ≤ k < s + 8)%N → N.testbit n1 k = N.testbit n2 k) as Hbit.
  { intros s Hs Hk. apply (f_equal (λ x, N.testbit x (k - s))) in Hs.
    rewrite !octet_testbit in Hs by lia. by replace (k - s + s)%N with k in Hs by lia. }
  destruct (decide (k < 8)%N); [by apply (Hbit 0%N); [|lia]|].
  destruct (decide (k < 16)%N); [by apply (Hbit 8%N); [|lia]|].
  destruct (decide (k < 24)%N); [by apply (Hbit 16%N); [|lia]|].
  destruct (decide (k < 32)%N); [by apply (Hbit 24%N); [|lia]|].
  by rewrite !testbit_above by lia.
Qed.

Lemma host_octet_zero v p s :
  (s + 8 ≤ 32 - p)%N → N.land (N.shiftr (clear_host_bits v p) s) 255 = 0%N.
Proof.
  intros Hs. apply N.bits_inj. intros k. rewrite N.bits_0.
  destruct (decide (k < 8)%N).
  - rewrite octet_testbit by done. unfold clear_host_bits.
    apply N.shiftl_spec_low. lia.
  - rewrite N.land_spec. change 255%N with (N.ones 8).
    rewrite (N.ones_spec_high 8 k) by lia. apply andb_false_r.
Qed.

Lemma host_octets_zero v p :
  octets (clear_host_bits v p)
  = take (significant_octets p) (octets (clear_host_bits v p))
    ++ replicate (4 - significant_octets p) 0%N.
Proof.
  rewrite octets_shifts.
  destruct (significant_octets_cases p) as [[-> ->]|[[H ->]|[[H ->]|[[H ->]|[H Hs]]]]].
  - cbn [take replicate app Nat.sub]. by rewrite !host_octet_zero by lia.
  - cbn [take replicate app Nat.sub].
    by rewrite (host_octet_zero v p 16), (host_octet_zero v p 8),
         (host_octet_zero v p 0) by lia.
  - cbn [take replicate app Nat.sub].
    by rewrite (host_octet_zero v p 8), (host_octet_zero v p 0) by lia.
  - cbn [take replicate app Nat.sub]. by rewrite (host_octet_zero v p 0) by lia.
  - rewrite take_ge by (cbn; lia).
    replace (4 - significant_octets p) with 0 by lia. by rewrite app_nil_r.
Qed.

(** One fragment at the head of a buffer determines the route and what
    follows it. *)
Lemma fragment_unique r1 r2 (c1 c2 : list N) :
  ipv4_route r1 → ipv4_route r2 →
  route_step [] r1 ++ c1 = route_step [] r2 ++ c2 → r1 = r2 ∧ c1 = c2.
Proof.
  destruct r1 as [[[nw1 p1] w1] g1], r2 as [[[nw2 p2] w2] g2].
  intros (Hp1 & Hn1 & Hc1 & -> & gw1 & Hg1 & ->)
         (Hp2 & Hn2 & Hc2 & -> & gw2 & Hg2 & ->).
  rewrite !route_step_fragment, !words_octets. cbn [app].
  rewrite <- !app_assoc. intros [= <- Hrest].
  apply app_inj_1 in Hrest as [Htake Hrest].
  2:{ by rewrite !length_take. }
  injection Hrest as H24 H16 H8 H0 ->.
  assert (octets (value gw1) = octets (value gw2)) as Hgw
    by (unfold octets; congruence).
  apply octets_inj in Hgw; [|done..].
  assert (value nw1 = value nw2) as Hnw.
  { apply octets_inj; [done..|]. rewrite Hc1, Hc2.
    rewrite (host_octets_zero (value nw1)), (host_octets_zero (value nw2)).
    rewrite <- Hc1, <- Hc2. by rewrite Htake. }
  split; [|done]. destruct nw1, nw2, gw1, gw2. cbn in Hnw, Hgw. by subst.
Qed.

(** X16: for IPv4 routes the encoding loses nothing and needs no separators.
    Two objects whose routes are IPv4 routes and that give the same output
    hold the same routes: the same network addresses, prefix lengths and
    gateways, in the same order. *)
Theorem routes_unique_ipv4 (self1 self2 : t) :
  Forall ipv4_route (_routes self1) → Forall ipv4_route (_routes self2) →
  ListClasslessRoutes self1 = ListClasslessRoutes self2 →
  self1 = self2.
Proof.
  destruct self1 as [rs1], self2 as [rs2]. unfold ListClasslessRoutes.
  cbn [_routes]. rewrite !routes_foldl. cbn [app]. intros H1 H2 Henc. f_equal.
  revert rs2 H2 Henc.
  induction H1 as [|r1 rs1 Hr1 _ IH]; intros rs2 H2 Henc.
  - destruct H2 as [|[[[nw p] w] g] rs2 _ _]; [done|].
    rewrite fmap_cons, route_step_fragment in Henc. done.
  - destruct H2 as [|r2 rs2 Hr2 H2].
    { destruct r1 as [[[nw p] w] g].
      rewrite fmap_cons, route_step_fragment in Henc. done. }
    rewrite !fmap_cons in Henc. cbn [concat] in Henc.
    destruct (fragment_unique _ _ _ _ Hr1 Hr2 Henc) as [-> Hrest].
    f_equal. by apply IH.
Qed.

Lemma routes_unique_ipv4_witness :
  ∃ self1 self2,
    __init__ [(str "192.168.1.77/25", str "192.168.1.1")] = Ok self1 ∧
    __init__ [(str "192.168.1.0/25", str "192.168.1.1")] = Ok self2 ∧
    self1 = self2.
Proof.
  eexists _, _. split; [vm_compute; reflexivity|]. split; [vm_compute; reflexivity|].
  apply routes_unique_ipv4.
  - eapply (init_ipv4 [(str "192.168.1.77/25", str "192.168.1.1")]).
    vm_compute. reflexivity.
  - eapply (init_ipv4 [(str "192.168.1.0/25", str "192.168.1.1")]).
    vm_compute. reflexivity.
  - vm_compute. reflexivity.
Defined.

End routes_unique.
